(** * make_mp4.py: a shallow embedding of postProcess/make_mp4.py

    The script turns a directory of numbered PNG frames into one MP4 by
    running ffmpeg.  This file embeds the filename inference
    ([infer_padding_and_prefix]), the re-matching of frame numbers, the gap
    warning, the pattern built for ffmpeg and the linear control flow of
    [main], whose effects (messages, the presence check, the ffmpeg run,
    fatal exits) are recorded by a small writer/error monad.

    Text model: a Python [str] is a Rocq [string] whose characters are the
    code points 0..255 (Latin-1).  In that range Python's [\d] is exactly
    '0'..'9', [str.lower] and the IGNORECASE equivalence of [re] are the
    Latin-1 case mapping below. *)

From Stdlib Require Import String Ascii List ZArith Bool Lia Sorted Permutation.
Import ListNotations.
Open Scope list_scope.

(* ------------------------------------------------------------------ *)
(** ** Characters *)

Definition code (c : ascii) : nat := nat_of_ascii c.

(** [str.lower] on one code point of the Latin-1 range: A-Z and
    the letters U+00C0..U+00DE except U+00D7 (multiplication sign). *)
Definition lower_char (c : ascii) : ascii :=
  let n := code c in
  if ((65 <=? n) && (n <=? 90)) || ((192 <=? n) && (n <=? 222) && negb (n =? 215))
  then ascii_of_nat (n + 32) else c.

Fixpoint lower (s : string) : string :=
  match s with
  | EmptyString => EmptyString
  | String c t => String (lower_char c) (lower t)
  end.

(** [\d] *)
Definition is_digit (c : ascii) : bool := (48 <=? code c) && (code c <=? 57).

(** Two characters are equal under [re.IGNORECASE]. *)
Definition ci_eq (a b : ascii) : bool := Ascii.eqb (lower_char a) (lower_char b).

Definition newline : ascii := ascii_of_nat 10.

(* ------------------------------------------------------------------ *)
(** ** The regular-expression pieces used by the script

    Each matcher takes the rest of the subject string.  A continuation
    [k] stands for the remainder of the pattern, so backtracking is the
    order in which alternatives are tried. *)

(** A literal (an escaped literal, [re.escape]) matched case-insensitively;
    returns the rest of the subject. *)
Fixpoint lit_ci (lit s : string) : option string :=
  match lit with
  | EmptyString => Some s
  | String l lt =>
      match s with
      | EmptyString => None
      | String c t => if ci_eq l c then lit_ci lt t else None
      end
  end.

(** [$] without MULTILINE: end of the subject, or just before a final
    newline. *)
Definition dollar (s : string) : bool :=
  match s with
  | EmptyString => true
  | String c EmptyString => Ascii.eqb c newline
  | _ => false
  end.

(** [\.png$] under IGNORECASE. *)
Definition ext_end (s : string) : bool :=
  match lit_ci ".png" s with
  | Some r => dollar r
  | None => false
  end.

(** [(\d+)] followed by the rest of the pattern [k]: greedy, so the longer
    run is tried first; returns the captured digits. *)
Fixpoint digits_then (k : string -> bool) (s : string) : option string :=
  match s with
  | EmptyString => None
  | String c t =>
      if is_digit c then
        match digits_then k t with
        | Some d => Some (String c d)
        | None => if k t then Some (String c EmptyString) else None
        end
      else None
  end.

(** [^(.*?)] followed by the rest of the pattern [k]: lazy, so the shorter
    prefix is tried first; [.] does not match a newline.  Returns the
    captured prefix and the capture of [k]. *)
Fixpoint lazy_any (k : string -> option string) (s : string)
  : option (string * string) :=
  match k s with
  | Some d => Some (EmptyString, d)
  | None =>
      match s with
      | EmptyString => None
      | String c t =>
          if Ascii.eqb c newline then None
          else match lazy_any k t with
               | Some (p, d) => Some (String c p, d)
               | None => None
               end
      end
  end.

(** [re.compile(r"^(.*?)(\d+)\.png$", re.IGNORECASE).match(name)]:
    groups 1 and 2. *)
Definition frame_match (name : string) : option (string * string) :=
  lazy_any (digits_then ext_end) name.

(** [re.compile(rf"^{re.escape(prefix)}(\d+)\.png$", re.IGNORECASE).match(name)]:
    group 1. *)
Definition num_match (prefix name : string) : option string :=
  match lit_ci prefix name with
  | Some r => digits_then ext_end r
  | None => None
  end.

(** [int(digits)] for a run of ASCII digits. *)
Fixpoint int_of_digits_acc (acc : Z) (s : string) : Z :=
  match s with
  | EmptyString => acc
  | String c t => int_of_digits_acc (acc * 10 + Z.of_nat (code c - 48)) t
  end.

Definition int_of_digits (s : string) : Z := int_of_digits_acc 0 s.

(* ------------------------------------------------------------------ *)
(** ** Sorting

    [sorted] and [list.sort] return the sorted permutation of their
    argument; an insertion sort computes the same list.  Paths of one
    directory compare as their names, and Python compares [str] by code
    point, which is [String.compare]. *)

Fixpoint insert_by {A} (le : A -> A -> bool) (x : A) (l : list A) : list A :=
  match l with
  | [] => [x]
  | y :: t => if le x y then x :: y :: t else y :: insert_by le x t
  end.

Fixpoint sort_by {A} (le : A -> A -> bool) (l : list A) : list A :=
  match l with
  | [] => []
  | x :: t => insert_by le x (sort_by le t)
  end.

Definition sort_names (l : list string) : list string := sort_by String.leb l.

Definition sort_ints (l : list Z) : list Z := sort_by Z.leb l.

(* ------------------------------------------------------------------ *)
(** ** Errors of the script

    [SystemExit(msg)] and the uncaught [RuntimeError] both end the process
    with status 1; the constructor records which failure it was. *)

Inductive error :=
| NotFoundError
| EmptyInputError
| ToolMissingError
| InferenceError
| EncodeError (returncode : Z)
| OutputVerificationError.

(* ------------------------------------------------------------------ *)
(** ** [infer_padding_and_prefix] *)

(** The loop [for f in ...: m = r.match(f.name); if m: return ...]. *)
Fixpoint first_frame_match (files : list string) : option (string * nat) :=
  match files with
  | [] => None
  | f :: fs =>
      match frame_match f with
      | Some (prefix, digits) => Some (prefix, String.length digits)
      | None => first_frame_match fs
      end
  end.

Definition infer_padding_and_prefix (files : list string)
  : error + (string * nat) :=
  match first_frame_match (sort_names files) with
  | Some r => inr r
  | None => inl InferenceError
  end.

(* ------------------------------------------------------------------ *)
(** ** Enumeration: [Path.suffix] (Python 3.12 pathlib)

    [i = name.rfind('.'); return name[i:] if 0 < i < len(name) - 1 else ''] *)

Fixpoint rfind_dot_from (i : nat) (s : string) : option nat :=
  match s with
  | EmptyString => None
  | String c t =>
      match rfind_dot_from (S i) t with
      | Some j => Some j
      | None => if Ascii.eqb c "." then Some i else None
      end
  end.

Definition suffix (name : string) : string :=
  match rfind_dot_from 0 name with
  | Some i =>
      if (0 <? i) && (i <? String.length name - 1)
      then substring i (String.length name - i) name
      else EmptyString
  | None => EmptyString
  end.

(** [sorted([f for f in indir.iterdir() if f.suffix.lower()==".png"])] *)
Definition collect_pngs (listing : list string) : list string :=
  sort_names (filter (fun n => String.eqb (lower (suffix n)) ".png") listing).

(* ------------------------------------------------------------------ *)
(** ** Frame numbers and gaps *)

(** The loop filling [nums], then [nums.sort()]. *)
Fixpoint matched_numbers (prefix : string) (files : list string) : list Z :=
  match files with
  | [] => []
  | f :: fs =>
      match num_match prefix f with
      | Some d => int_of_digits d :: matched_numbers prefix fs
      | None => matched_numbers prefix fs
      end
  end.

Definition extract_numbers (prefix : string) (files : list string) : list Z :=
  sort_ints (matched_numbers prefix files).

(** [[b for a,b in zip(nums, nums[1:]) if b != a+1]] *)
Definition gaps (nums : list Z) : list Z :=
  map snd (filter (fun ab => negb (snd ab =? fst ab + 1)%Z)
                  (combine nums (tl nums))).

(* ------------------------------------------------------------------ *)
(** ** Rendering integers and the ffmpeg pattern *)

Fixpoint dec_aux (fuel : nat) (z : Z) (acc : string) : string :=
  match fuel with
  | O => acc
  | S f =>
      let acc' := String (ascii_of_nat (48 + Z.to_nat (z mod 10))) acc in
      if (z <? 10)%Z then acc' else dec_aux f (z / 10)%Z acc'
  end.

(** [str(z)] for a Python [int]. *)
Definition str_of_int (z : Z) : string :=
  if (z <? 0)%Z
  then String "-" (dec_aux (S (Z.to_nat (Z.log2 (- z)))) (- z) EmptyString)
  else dec_aux (S (Z.to_nat (Z.log2 z))) z EmptyString.

(** [f"{prefix}%0{pad}d.png"] *)
Definition build_pattern (prefix : string) (pad : Z) : string :=
  (prefix ++ "%0" ++ str_of_int pad ++ "d.png")%string.

(* ------------------------------------------------------------------ *)
(** ** Effects of [main]

    A run yields the events it performed, in order, and either a fatal
    error or normal completion. *)

Inductive event :=
| EvWhichFfmpeg                   (** [shutil.which("ffmpeg")] *)
| EvWarnGaps                      (** the [[WARN]] line *)
| EvInfoRunning (line : string)   (** [print("[INFO] Running:", ...)] *)
| EvRunFfmpeg (cmd : list string) (** [subprocess.run(cmd, check=True)] *)
| EvOk (resolved : string).       (** [print(f"[OK] Video written to ...")] *)

Definition M (A : Type) : Type := (list event * (error + A))%type.

Definition ret {A} (a : A) : M A := ([], inr a).
Definition throw {A} (e : error) : M A := ([], inl e).
Definition emit (ev : event) : M unit := ([ev], inr tt).

Definition bind {A B} (m : M A) (f : A -> M B) : M B :=
  let (l1, r) := m in
  match r with
  | inl e => (l1, inl e)
  | inr a => let (l2, r2) := f a in (l1 ++ l2, r2)
  end.

Notation "x <- m ;; k" := (bind m (fun x => k))
  (at level 61, m at next level, right associativity).
Notation "m ;;; k" := (bind m (fun _ => k))
  (at level 61, right associativity).

(** Process exit status: [SystemExit(str)] and an uncaught exception
    give 1, normal return gives 0. *)
Definition exit_status {A} (r : M A) : Z :=
  match snd r with inl _ => 1 | inr _ => 0 end%Z.

(** Parsed command line (argparse has applied defaults and the preset
    choices already). *)
Record args := {
  a_indir : string;
  a_out : string;
  a_prefix : option string;
  a_pad : option Z;
  a_fps : Z;
  a_crf : Z;
  a_preset : string
}.

(** The environment the run observes: whether the input directory exists,
    its entries' names, whether ffmpeg is on PATH, what ffmpeg does for a
    command (its return code and afterwards the output path: [None] if it
    does not exist, else its size), and [Path.resolve] of a path. *)
Record world := {
  w_is_dir : bool;
  w_listing : list string;
  w_which_ffmpeg : bool;
  w_ffmpeg : list string -> Z * option Z;
  w_resolve : string -> string
}.

Section Main.

(** [str(Path(p))] and [str(Path(d) / name)]: pathlib's rendering of paths
    only feeds the command line, so it is left abstract. *)
Variable path_str : string -> string.
Variable path_join : string -> string -> string.

(** [if args.prefix is None or args.pad is None: ... else ...] *)
Definition resolve_scheme (a : args) (pngs : list string) : M (string * Z) :=
  match a_prefix a, a_pad a with
  | Some p, Some k => ret (p, k)
  | _, _ =>
      match infer_padding_and_prefix pngs with
      | inl e => throw e
      | inr (p, n) => ret (p, Z.of_nat n)
      end
  end.

(** [if len(nums) >= 2: gaps = ...; if gaps: print(...)] *)
Definition warn_gaps (nums : list Z) : M unit :=
  if 2 <=? length nums then
    match gaps nums with
    | [] => ret tt
    | _ :: _ => emit EvWarnGaps
    end
  else ret tt.

Definition ffmpeg_cmd (a : args) (input_pattern : string) : list string :=
  ["ffmpeg"; "-y"; "-framerate"; str_of_int (a_fps a); "-i"; input_pattern;
   "-c:v"; "libx264"; "-preset"; a_preset a; "-crf"; str_of_int (a_crf a);
   "-pix_fmt"; "yuv420p"; path_str (a_out a)]%string.

(** Everything after the ffmpeg command is built: run it once, then check
    the output file. *)
Definition run_and_verify (w : world) (a : args) (cmd : list string) : M unit :=
  emit (EvInfoRunning (String.concat " " cmd)) ;;;
  emit (EvRunFfmpeg cmd) ;;;
  let (returncode, out_state) := w_ffmpeg w cmd in
  if negb (returncode =? 0)%Z then throw (EncodeError returncode)
  else match out_state with
       | Some size =>
           if (0 <? size)%Z then emit (EvOk (w_resolve w (path_str (a_out a))))
           else throw OutputVerificationError
       | None => throw OutputVerificationError
       end.

Definition main (w : world) (a : args) : M unit :=
  if negb (w_is_dir w) then throw NotFoundError else
  let pngs := collect_pngs (w_listing w) in
  match pngs with
  | [] => throw EmptyInputError
  | _ :: _ =>
      emit EvWhichFfmpeg ;;;
      if negb (w_which_ffmpeg w) then throw ToolMissingError else
      scheme <- resolve_scheme a pngs ;;
      let (prefix, pad) := scheme in
      warn_gaps (extract_numbers prefix pngs) ;;;
      let pattern := build_pattern prefix pad in
      let input_pattern := path_join (a_indir a) pattern in
      run_and_verify w a (ffmpeg_cmd a input_pattern)
  end.

End Main.

(* ------------------------------------------------------------------ *)
(** ** Reading the patterns back as the shape of a name

    The spec-side description of a match: a name cut into pieces. *)

Fixpoint all_digits (s : string) : bool :=
  match s with
  | EmptyString => true
  | String c t => is_digit c && all_digits t
  end.

Fixpoint no_newline (s : string) : bool :=
  match s with
  | EmptyString => true
  | String c t => negb (Ascii.eqb c newline) && no_newline t
  end.

Fixpoint ends_in_digit (s : string) : bool :=
  match s with
  | EmptyString => false
  | String c EmptyString => is_digit c
  | String _ t => ends_in_digit t
  end.

(** [name] is [prefix ++ digits ++ ext ++ tail] where [ext] is ".png" in
    any case and [tail] is what [$] lets through: nothing or one final
    newline; [prefix] has no newline and does not end in a digit, so
    [digits] is the whole digit run before the extension. *)
Definition frame_shape (name prefix digits : string) : Prop :=
  exists ext tail,
    name = (prefix ++ digits ++ ext ++ tail)%string /\
    digits <> EmptyString /\ all_digits digits = true /\
    lower ext = ".png"%string /\
    (tail = EmptyString \/ tail = String newline EmptyString) /\
    no_newline prefix = true /\ ends_in_digit prefix = false.

(** Kinds of events. *)
Definition is_ffmpeg_run (ev : event) : bool :=
  match ev with EvRunFfmpeg _ => true | _ => false end.

Definition is_ok_message (ev : event) : bool :=
  match ev with EvOk _ => true | _ => false end.

(** Spec side of the gap check: some adjacent pair differs by other than 1. *)
Definition has_gap (nums : list Z) : Prop :=
  exists l1 x y l2, nums = l1 ++ x :: y :: l2 /\ y <> (x + 1)%Z.

(** Spec side of the re-matching: [name] is a case variant of [prefix],
    then the non-empty digit run [digits], then ".png" in any case, and
    nothing after it. *)
Definition num_shape (prefix name digits : string) : Prop :=
  exists p' ext,
    name = (p' ++ digits ++ ext)%string /\ lower p' = lower prefix /\
    digits <> EmptyString /\ all_digits digits = true /\
    lower ext = ".png"%string.

(** The frames [clip_001.png] .. [clip_010.png] of the spec's example. *)
Definition clip_files : list string :=
  ["clip_001.png"; "clip_002.png"; "clip_003.png"; "clip_004.png";
   "clip_005.png"; "clip_006.png"; "clip_007.png"; "clip_008.png";
   "clip_009.png"; "clip_010.png"]%string.

(** A concrete run: the clip frames, ffmpeg present and behaving as [ff],
    default options, paths rendered as written and joined with "/". *)
Definition example_world (ff : list string -> Z * option Z) : world :=
  {| w_is_dir := true; w_listing := clip_files; w_which_ffmpeg := true;
     w_ffmpeg := ff; w_resolve := fun p => ("/work/" ++ p)%string |}.

Definition example_args : args :=
  {| a_indir := "frames_png"; a_out := "dropfilm.mp4"; a_prefix := None;
     a_pad := None; a_fps := 30; a_crf := 18; a_preset := "medium" |}%string.

Definition example_path_str (p : string) : string := p.

Definition example_path_join (d n : string) : string := (d ++ "/" ++ n)%string.

Definition example_cmd : list string :=
  ffmpeg_cmd example_path_str example_args
    (example_path_join "frames_png" "clip_%03d.png").

(** A directory holding one PNG without a frame number. *)
Definition cover_world : world :=
  {| w_is_dir := true; w_listing := ["cover.png"]%string; w_which_ffmpeg := true;
     w_ffmpeg := fun _ => (0%Z, Some 1%Z); w_resolve := fun p => p |}.

(** The default options with [--prefix frame- --pad 5]. *)
Definition explicit_args : args :=
  {| a_indir := "frames_png"; a_out := "dropfilm.mp4"; a_prefix := Some "frame-";
     a_pad := Some 5%Z; a_fps := 30; a_crf := 18; a_preset := "medium" |}%string.

(* ------------------------------------------------------------------ *)
(** ** Lemmas on strings *)

Lemma str_app_assoc (a b c : string) :
  ((a ++ b) ++ c)%string = (a ++ (b ++ c))%string.
Proof. induction a; simpl; congruence. Qed.

Lemma str_app_nil_r (a : string) : (a ++ "")%string = a.
Proof. induction a; simpl; congruence. Qed.

Lemma str_length_app (a b : string) :
  String.length (a ++ b) = String.length a + String.length b.
Proof. induction a; simpl; auto. Qed.

Lemma lower_app (a b : string) : lower (a ++ b) = (lower a ++ lower b)%string.
Proof. induction a; simpl; congruence. Qed.

Lemma lower_length (a : string) : String.length (lower a) = String.length a.
Proof. induction a; simpl; auto. Qed.

Lemma lower_empty (a : string) : lower a = EmptyString -> a = EmptyString.
Proof. destruct a; simpl; congruence. Qed.

Lemma str_app_eq_app (a b c d : string) :
  (a ++ b)%string = (c ++ d)%string ->
  exists m, (c = (a ++ m)%string /\ b = (m ++ d)%string)
         \/ (a = (c ++ m)%string /\ d = (m ++ b)%string).
Proof.
  revert c. induction a as [|x a IH]; intros c H; simpl in H.
  - exists c. left. auto.
  - destruct c as [|y c]; simpl in H.
    + exists (String x a). right. simpl. auto.
    + injection H as -> H. destruct (IH c H) as [m [[-> ->]|[-> ->]]].
      * exists m. left. auto.
      * exists m. right. auto.
Qed.

Lemma all_digits_app (a b : string) :
  all_digits (a ++ b) = all_digits a && all_digits b.
Proof. induction a; simpl; [auto | rewrite IHa; apply andb_assoc]. Qed.

Lemma ends_in_digit_cons (c : ascii) (t : string) :
  t <> EmptyString -> ends_in_digit (String c t) = ends_in_digit t.
Proof. destruct t; simpl; congruence. Qed.

Lemma all_digits_ends (p : string) :
  p <> EmptyString -> all_digits p = true -> ends_in_digit p = true.
Proof.
  induction p as [|c t IH]; intros Hne H; [congruence|].
  simpl in H. apply andb_true_iff in H as [Hc Ht].
  destruct t as [|c' t'].
  - simpl. exact Hc.
  - rewrite ends_in_digit_cons by discriminate. apply IH; [discriminate|exact Ht].
Qed.

Lemma lower_char_digit (c : ascii) : is_digit c = true -> lower_char c = c.
Proof.
  unfold is_digit, lower_char. intros H.
  apply andb_true_iff in H as [H1 H2].
  apply Nat.leb_le in H1. apply Nat.leb_le in H2.
  destruct ((65 <=? code c) && (code c <=? 90)) eqn:E1.
  { apply andb_true_iff in E1 as [E _]. apply Nat.leb_le in E. lia. }
  destruct ((192 <=? code c) && (code c <=? 222) && negb (code c =? 215)) eqn:E2.
  { apply andb_true_iff in E2 as [E _]. apply andb_true_iff in E as [E _].
    apply Nat.leb_le in E. lia. }
  reflexivity.
Qed.

(* ------------------------------------------------------------------ *)
(** ** The matchers against the shapes *)

Lemma lit_ci_spec (lit s r : string) :
  lit_ci lit s = Some r <->
  exists e, s = (e ++ r)%string /\ lower e = lower lit.
Proof.
  revert s. induction lit as [|l lt IH]; intros s; simpl.
  - split.
    + intros H. injection H as ->. exists EmptyString. auto.
    + intros [e [-> He]]. apply lower_empty in He. subst. reflexivity.
  - destruct s as [|c t].
    + split; [discriminate|]. intros [e [He Hl]].
      destruct e; simpl in *; discriminate.
    + destruct (ci_eq l c) eqn:Hc.
      * rewrite IH. split.
        -- intros [e [-> He]]. exists (String c e). simpl. split; [reflexivity|].
           unfold ci_eq in Hc. apply Ascii.eqb_eq in Hc. congruence.
        -- intros [e [He Hl]]. destruct e as [|c' e']; simpl in He, Hl.
           ++ discriminate.
           ++ injection He as -> ->. injection Hl as _ Hl. exists e'. auto.
      * split; [discriminate|]. intros [e [He Hl]].
        destruct e as [|c' e']; simpl in He, Hl; [discriminate|].
        injection He as -> _. injection Hl as Hl _.
        unfold ci_eq in Hc. rewrite Hl, Ascii.eqb_refl in Hc. discriminate.
Qed.

Lemma dollar_spec (s : string) :
  dollar s = true <-> s = EmptyString \/ s = String newline EmptyString.
Proof.
  destruct s as [|c [|c' t]]; simpl.
  - tauto.
  - rewrite Ascii.eqb_eq. split.
    + intros ->. auto.
    + intros [H|H]; [discriminate|]. injection H as ->. reflexivity.
  - split; [discriminate|]. intros [H|H]; discriminate.
Qed.

Lemma ext_end_spec (s : string) :
  ext_end s = true <->
  exists e tail, s = (e ++ tail)%string /\ lower e = ".png"%string /\
    (tail = EmptyString \/ tail = String newline EmptyString).
Proof.
  unfold ext_end. split.
  - destruct (lit_ci ".png" s) as [r|] eqn:E; [|discriminate].
    intros Hd. apply lit_ci_spec in E as [e [-> He]].
    exists e, r. split; [reflexivity|]. split; [exact He|].
    apply dollar_spec. exact Hd.
  - intros [e [tail [-> [He Ht]]]].
    assert (lit_ci ".png" (e ++ tail) = Some tail) as ->.
    { apply lit_ci_spec. exists e. auto. }
    apply dollar_spec. exact Ht.
Qed.

Lemma ext_end_length (s : string) :
  ext_end s = true -> 4 <= String.length s <= 5.
Proof.
  intros H. apply ext_end_spec in H as [e [tail [-> [He Ht]]]].
  rewrite str_length_app, <- lower_length, He.
  destruct Ht as [->| ->]; simpl; lia.
Qed.

Lemma ext_end_head (s : string) :
  ext_end s = true -> exists c t, s = String c t /\ is_digit c = false.
Proof.
  intros H. apply ext_end_spec in H as [e [tail [-> [He _]]]].
  destruct e as [|c e]; simpl in He; [discriminate|].
  injection He as Hc _. exists c, (e ++ tail)%string. split; [reflexivity|].
  destruct (is_digit c) eqn:Hd; [|reflexivity].
  rewrite (lower_char_digit c Hd) in Hc. subst c. discriminate.
Qed.

Lemma digits_then_ext_spec (s d : string) :
  digits_then ext_end s = Some d <->
  exists r, s = (d ++ r)%string /\ d <> EmptyString /\
    all_digits d = true /\ ext_end r = true.
Proof.
  revert d. induction s as [|c t IH]; intros d; simpl.
  - split; [discriminate|]. intros [r [Hs [Hd _]]].
    destruct d; simpl in Hs; [congruence|discriminate].
  - destruct (is_digit c) eqn:Hc.
    + case_eq (digits_then ext_end t); [intros d' Et | intros Et].
      * split.
        -- intros H. injection H as <-.
           apply IH in Et as [r [-> [Hne [Hall Hr]]]].
           exists r. simpl. rewrite Hc, Hall. repeat split; auto; discriminate.
        -- intros [r [Hs [Hne [Hall Hr]]]].
           destruct d as [|c0 d0]; [congruence|]. simpl in Hs, Hall.
           injection Hs as <- Ht.
           destruct d0 as [|c1 d1].
           ++ simpl in Ht. subst t. apply ext_end_head in Hr as [x [y [-> Hx]]].
              simpl in Et. rewrite Hx in Et. discriminate.
           ++ assert (digits_then ext_end t = Some (String c1 d1)) as E.
              { apply IH. exists r. repeat split; auto; [discriminate|].
                apply andb_true_iff in Hall. tauto. }
              congruence.
      * destruct (ext_end t) eqn:Ht.
        -- split.
           ++ intros H. injection H as <-. exists t. simpl. rewrite Hc.
              repeat split; auto; discriminate.
           ++ intros [r [Hs [Hne [Hall Hr]]]].
              destruct d as [|c0 d0]; [congruence|]. simpl in Hs, Hall.
              injection Hs as <- Hs.
              destruct d0 as [|c1 d1]; [reflexivity|].
              assert (digits_then ext_end t = Some (String c1 d1)) as E.
              { apply IH. exists r. repeat split; auto; [discriminate|].
                apply andb_true_iff in Hall. tauto. }
              congruence.
        -- split; [discriminate|]. intros [r [Hs [Hne [Hall Hr]]]].
           destruct d as [|c0 d0]; [congruence|]. simpl in Hs, Hall.
           injection Hs as <- Hs.
           destruct d0 as [|c1 d1].
           ++ simpl in Hs. congruence.
           ++ assert (digits_then ext_end t = Some (String c1 d1)) as E.
              { apply IH. exists r. repeat split; auto; [discriminate|].
                apply andb_true_iff in Hall. tauto. }
              congruence.
    + split; [discriminate|]. intros [r [Hs [Hne [Hall _]]]].
      destruct d as [|c0 d0]; [congruence|]. simpl in Hs, Hall.
      injection Hs as <- _. rewrite Hc in Hall. discriminate.
Qed.

(** Where the lazy prefix is non-empty and does not end in a digit, the
    digit-and-extension tail cannot start at the beginning. *)
Lemma digits_then_ext_late (p r d : string) :
  p <> EmptyString -> ends_in_digit p = false ->
  digits_then ext_end r = Some d ->
  digits_then ext_end (p ++ r) = None.
Proof.
  intros Hp Hend Hr.
  destruct (digits_then ext_end (p ++ r)) as [d'|] eqn:E; [|reflexivity].
  exfalso.
  apply digits_then_ext_spec in E as [r' [Hs [Hne' [Hall' Hr']]]].
  apply digits_then_ext_spec in Hr as [r0 [-> [Hne [_ Hr0]]]].
  apply str_app_eq_app in Hs as [m [[-> _]|[-> Hm]]].
  - rewrite all_digits_app in Hall'. apply andb_true_iff in Hall' as [Hp' _].
    rewrite all_digits_ends in Hend; auto; discriminate.
  - destruct m as [|x m].
    + rewrite str_app_nil_r in Hend, Hp.
      rewrite all_digits_ends in Hend; auto; discriminate.
    + apply ext_end_length in Hr'. apply ext_end_length in Hr0.
      rewrite Hm in Hr'. simpl in Hr'.
      rewrite !str_length_app in Hr'.
      destruct d as [|y d]; [congruence|]. simpl in Hr'. lia.
Qed.

Lemma lazy_any_unfold (k : string -> option string) (s : string) :
  lazy_any k s =
  match k s with
  | Some d => Some (EmptyString, d)
  | None =>
      match s with
      | EmptyString => None
      | String c t =>
          if Ascii.eqb c newline then None
          else match lazy_any k t with
               | Some (p, d) => Some (String c p, d)
               | None => None
               end
      end
  end.
Proof. destruct s; reflexivity. Qed.

Lemma lazy_any_spec (s p d : string) :
  lazy_any (digits_then ext_end) s = Some (p, d) <->
  exists r, s = (p ++ r)%string /\ digits_then ext_end r = Some d /\
    no_newline p = true /\ ends_in_digit p = false.
Proof.
  split.
  - revert p d. induction s as [|c t IH]; intros p d H;
      rewrite lazy_any_unfold in H.
    + simpl in H. discriminate.
    + destruct (digits_then ext_end (String c t)) as [d0|] eqn:E0.
      * injection H as <- <-. exists (String c t). auto.
      * destruct (Ascii.eqb c newline) eqn:En; [discriminate|].
        case_eq (lazy_any (digits_then ext_end) t);
          [intros [p' d'] Et | intros Et]; rewrite Et in H; [|discriminate].
        injection H as <- <-.
        destruct (IH _ _ Et) as [r [-> [Hr [Hn He]]]].
        exists r. simpl. rewrite En, Hn. repeat split; auto.
        destruct p' as [|x p''].
        -- simpl. simpl in E0. rewrite Hr in E0.
           destruct (is_digit c); congruence.
        -- exact He.
  - intros [r [-> [Hr [Hn He]]]]. revert Hn He.
    induction p as [|c p' IH]; intros Hn He; rewrite lazy_any_unfold.
    + change (EmptyString ++ r)%string with r. rewrite Hr. reflexivity.
    + simpl in Hn. apply andb_true_iff in Hn as [Hc Hn].
      rewrite (digits_then_ext_late (String c p') r d) by (auto; discriminate).
      change (String c p' ++ r)%string with (String c (p' ++ r)). simpl.
      apply negb_true_iff in Hc. rewrite Hc.
      rewrite IH; auto.
      destruct p' as [|x p'']; [reflexivity|].
      rewrite ends_in_digit_cons in He by discriminate. exact He.
Qed.

Lemma frame_match_spec (name prefix digits : string) :
  frame_match name = Some (prefix, digits) <-> frame_shape name prefix digits.
Proof.
  unfold frame_match, frame_shape. rewrite lazy_any_spec. split.
  - intros [r [-> [Hr [Hn He]]]].
    apply digits_then_ext_spec in Hr as [r0 [-> [Hne [Hall Hr0]]]].
    apply ext_end_spec in Hr0 as [e [tail [-> [Hl Ht]]]].
    exists e, tail. repeat split; auto.
  - intros [e [tail [-> [Hne [Hall [Hl [Ht [Hn He]]]]]]]].
    exists (digits ++ e ++ tail)%string. repeat split; auto.
    apply digits_then_ext_spec. exists (e ++ tail)%string.
    repeat split; auto. apply ext_end_spec. exists e, tail. auto.
Qed.

(* ------------------------------------------------------------------ *)
(** ** The insertion sort computes the sorted permutation *)

Section SortBy.
Context {A : Type} (le : A -> A -> bool).
Hypothesis le_flip : forall a b, le a b = false -> le b a = true.

Lemma insert_by_perm (x : A) (l : list A) : Permutation (x :: l) (insert_by le x l).
Proof.
  induction l as [|y t IH]; simpl; [reflexivity|].
  destruct (le x y); [reflexivity|].
  rewrite perm_swap. constructor. exact IH.
Qed.

Lemma sort_by_perm (l : list A) : Permutation l (sort_by le l).
Proof.
  induction l as [|x t IH]; simpl; [reflexivity|].
  rewrite <- insert_by_perm. constructor. exact IH.
Qed.

Lemma insert_by_hd (y x : A) (l : list A) :
  HdRel (fun a b => le a b = true) y l -> le y x = true ->
  HdRel (fun a b => le a b = true) y (insert_by le x l).
Proof.
  intros H Hyx. destruct l as [|z t]; simpl.
  - constructor. exact Hyx.
  - destruct (le x z); constructor; [exact Hyx|]. inversion H; assumption.
Qed.

Lemma insert_by_sorted (x : A) (l : list A) :
  Sorted (fun a b => le a b = true) l ->
  Sorted (fun a b => le a b = true) (insert_by le x l).
Proof.
  induction 1 as [|y t Ht IH Hhd]; simpl.
  - repeat constructor.
  - destruct (le x y) eqn:Exy.
    + constructor; [constructor; assumption|]. constructor. exact Exy.
    + constructor; [exact IH|]. apply insert_by_hd; [exact Hhd|].
      apply le_flip. exact Exy.
Qed.

Lemma sort_by_sorted (l : list A) : Sorted (fun a b => le a b = true) (sort_by le l).
Proof.
  induction l as [|x t IH]; simpl; [constructor|].
  apply insert_by_sorted. exact IH.
Qed.

End SortBy.

Lemma string_leb_flip (a b : string) : String.leb a b = false -> String.leb b a = true.
Proof. intros H. destruct (String.leb_total a b); congruence. Qed.

Lemma z_leb_flip (a b : Z) : Z.leb a b = false -> Z.leb b a = true.
Proof. intros H. apply Z.leb_gt in H. apply Z.leb_le. lia. Qed.

(* ------------------------------------------------------------------ *)
(** ** The loop of [infer_padding_and_prefix] *)

Lemma first_frame_match_spec (l : list string) (p : string) (n : nat) :
  first_frame_match l = Some (p, n) <->
  exists before f after digits,
    l = before ++ f :: after /\
    Forall (fun g => frame_match g = None) before /\
    frame_match f = Some (p, digits) /\ String.length digits = n.
Proof.
  induction l as [|g t IH]; simpl.
  - split; [discriminate|]. intros [before [f [after [d [H _]]]]].
    destruct before; discriminate.
  - destruct (frame_match g) as [[p0 d0]|] eqn:Eg.
    + split.
      * intros H. injection H as <- <-. exists [], g, t, d0. auto.
      * intros [before [f [after [d [Hl [Hb [Hf Hd]]]]]]].
        destruct before as [|b bs]; simpl in Hl; injection Hl as <- Hl.
        -- rewrite Hf in Eg. injection Eg as <- <-. subst. reflexivity.
        -- inversion Hb. congruence.
    + rewrite IH. split.
      * intros [before [f [after [d [-> [Hb [Hf Hd]]]]]]].
        exists (g :: before), f, after, d. simpl. auto.
      * intros [before [f [after [d [Hl [Hb [Hf Hd]]]]]]].
        destruct before as [|b bs]; simpl in Hl; injection Hl as <- Hl.
        -- congruence.
        -- inversion Hb; subst. exists bs, f, after, d. auto.
Qed.

Lemma first_frame_match_none (l : list string) :
  first_frame_match l = None <-> Forall (fun g => frame_match g = None) l.
Proof.
  induction l as [|g t IH]; simpl.
  - split; auto.
  - destruct (frame_match g) as [[p d]|] eqn:Eg.
    + split; [discriminate|]. intros H. inversion H. congruence.
    + rewrite IH. split; [auto|]. intros H. inversion H. assumption.
Qed.

Lemma frame_match_none_shape (g : string) :
  frame_match g = None <-> forall p d, ~ frame_shape g p d.
Proof.
  split.
  - intros H p d Hs. apply frame_match_spec in Hs. congruence.
  - intros H. destruct (frame_match g) as [[p d]|] eqn:E; [|reflexivity].
    exfalso. apply (H p d). apply frame_match_spec. exact E.
Qed.

(* ------------------------------------------------------------------ *)
(** ** Claims on [infer_padding_and_prefix] *)

(** C1: the candidates are visited in sorted (code-point lexicographic)
    order, a permutation of the input, and the result is the captured
    prefix and the digit count of the FIRST candidate matching
    [^(.*?)(\d+)\.png$] (IGNORECASE); all candidates before it do not
    match.  A match is the shape [prefix ++ digits ++ ext ++ tail]:
    [digits] a non-empty digit run, [ext] ".png" in any case, [tail] empty
    or one final newline (Python's [$]), and the lazy [prefix] the
    shortest one: no newline (as [.]) and not ending in a digit. *)
Theorem infer_padding_and_prefix_first_match (files : list string)
    (prefix : string) (pad : nat) :
  (Sorted (fun a b => String.leb a b = true) (sort_names files) /\
   Permutation files (sort_names files)) /\
  (infer_padding_and_prefix files = inr (prefix, pad) <->
   exists before f after digits,
     sort_names files = before ++ f :: after /\
     Forall (fun g => forall p d, ~ frame_shape g p d) before /\
     frame_shape f prefix digits /\ String.length digits = pad).
Proof.
  split.
  - split; [apply sort_by_sorted, string_leb_flip | apply sort_by_perm].
  - unfold infer_padding_and_prefix.
    assert (first_frame_match (sort_names files) = Some (prefix, pad) <->
            infer_padding_and_prefix files = inr (prefix, pad)) as Hinf.
    { unfold infer_padding_and_prefix.
      destruct (first_frame_match (sort_names files)) as [r|]; split;
        congruence. }
    unfold infer_padding_and_prefix in Hinf. rewrite <- Hinf.
    rewrite first_frame_match_spec. split.
    + intros [before [f [after [d [Hl [Hb [Hf Hd]]]]]]].
      exists before, f, after, d. repeat split; auto.
      * eapply Forall_impl; [|exact Hb]. intros g. apply frame_match_none_shape.
      * apply frame_match_spec. exact Hf.
    + intros [before [f [after [d [Hl [Hb [Hf Hd]]]]]]].
      exists before, f, after, d. repeat split; auto.
      * eapply Forall_impl; [|exact Hb]. intros g. apply frame_match_none_shape.
      * apply frame_match_spec. exact Hf.
Qed.

(** C9: for [clip_001.png] .. [clip_010.png] the inferred scheme is
    [("clip_", 3)], also as [main] resolves it when neither option is
    given, and the pattern handed to ffmpeg is [clip_%03d.png]. *)
Theorem clip_scheme_and_pattern :
  infer_padding_and_prefix clip_files = inr ("clip_"%string, 3) /\
  (forall a, a_prefix a = None -> a_pad a = None ->
     resolve_scheme a clip_files = ret ("clip_"%string, 3%Z)) /\
  build_pattern "clip_" (Z.of_nat 3) = "clip_%03d.png"%string.
Proof.
  split; [vm_compute; reflexivity|]. split.
  - intros a Hp _. unfold resolve_scheme. rewrite Hp. vm_compute. reflexivity.
  - vm_compute. reflexivity.
Qed.

(* ------------------------------------------------------------------ *)
(** ** Running [main] *)

Lemma bind_inl {A B} (l : list event) (e : error) (f : A -> M B) :
  bind (l, inl e) f = (l, inl e).
Proof. reflexivity. Qed.

Lemma bind_inr {A B} (l : list event) (x : A) (f : A -> M B) :
  bind (l, inr x) f = (l ++ fst (f x), snd (f x)).
Proof. unfold bind. destruct (f x); reflexivity. Qed.

Lemma resolve_scheme_cases (a : args) (pngs : list string) :
  (exists e, resolve_scheme a pngs = ([], inl e)) \/
  (exists s, resolve_scheme a pngs = ([], inr s)).
Proof.
  unfold resolve_scheme.
  destruct (a_prefix a), (a_pad a); try (right; eexists; reflexivity);
    destruct (infer_padding_and_prefix pngs) as [e|[p n]];
    solve [left; eexists; reflexivity | right; eexists; reflexivity].
Qed.

Lemma warn_gaps_cases (nums : list Z) :
  warn_gaps nums = ([], inr tt) \/ warn_gaps nums = ([EvWarnGaps], inr tt).
Proof.
  unfold warn_gaps. destruct (2 <=? length nums); [|auto].
  destruct (gaps nums); auto.
Qed.

Lemma run_and_verify_fst (ps : string -> string) (w : world) (a : args)
    (cmd : list string) :
  fst (run_and_verify ps w a cmd) =
  [EvInfoRunning (String.concat " " cmd); EvRunFfmpeg cmd] ++
  match w_ffmpeg w cmd with
  | (0%Z, Some size) =>
      if (0 <? size)%Z then [EvOk (w_resolve w (ps (a_out a)))] else []
  | _ => []
  end.
Proof.
  unfold run_and_verify, emit, throw, bind. simpl.
  destruct (w_ffmpeg w cmd) as [code out].
  destruct code as [|c|c]; simpl; try reflexivity.
  destruct out as [size|]; simpl; [|reflexivity].
  destruct (0 <? size)%Z; reflexivity.
Qed.

Lemma run_and_verify_snd (ps : string -> string) (w : world) (a : args)
    (cmd : list string) :
  snd (run_and_verify ps w a cmd) =
  let (code, out) := w_ffmpeg w cmd in
  if negb (code =? 0)%Z then inl (EncodeError code)
  else match out with
       | Some size => if (0 <? size)%Z then inr tt else inl OutputVerificationError
       | None => inl OutputVerificationError
       end.
Proof.
  unfold run_and_verify, emit, throw, bind. simpl.
  destruct (w_ffmpeg w cmd) as [code out].
  destruct (negb (code =? 0)%Z); [reflexivity|].
  destruct out as [size|]; [|reflexivity].
  destruct (0 <? size)%Z; reflexivity.
Qed.

(** Every run either stops before ffmpeg, having only done the presence
    check, or reaches exactly one [run_and_verify] after the presence
    check and at most the gap warning. *)
Lemma main_shape (ps : string -> string) (pj : string -> string -> string)
    (w : world) (a : args) :
  (exists pre e, main ps pj w a = (pre, inl e) /\
     Forall (fun ev => ev = EvWhichFfmpeg) pre) \/
  (exists pre cmd,
     Forall (fun ev => ev = EvWhichFfmpeg \/ ev = EvWarnGaps) pre /\
     main ps pj w a = (pre ++ fst (run_and_verify ps w a cmd),
                       snd (run_and_verify ps w a cmd))).
Proof.
  unfold main.
  destruct (w_is_dir w); simpl negb; cbv iota beta.
  2: { left. exists [], NotFoundError. auto. }
  destruct (collect_pngs (w_listing w)) as [|f fs] eqn:Hp.
  { left. exists [], EmptyInputError. auto. }
  unfold emit. rewrite bind_inr. cbv beta.
  destruct (w_which_ffmpeg w); simpl negb; cbv iota beta.
  2: { left. exists [EvWhichFfmpeg], ToolMissingError. auto. }
  destruct (resolve_scheme_cases a (f :: fs)) as [[e ->]|[[prefix pad] ->]].
  { left. exists [EvWhichFfmpeg], e. auto. }
  rewrite bind_inr. cbv beta iota.
  destruct (warn_gaps_cases (extract_numbers prefix (f :: fs))) as [-> | ->];
    rewrite bind_inr; simpl; right.
  - eexists [EvWhichFfmpeg], _. split; [auto|reflexivity].
  - eexists [EvWhichFfmpeg; EvWarnGaps], _. split; [auto|reflexivity].
Qed.

Lemma ok_events_only (ps : string -> string) (w : world) (a : args)
    (cmd : list string) (ev : event) :
  In ev (match w_ffmpeg w cmd with
         | (0%Z, Some size) =>
             if (0 <? size)%Z then [EvOk (w_resolve w (ps (a_out a)))] else []
         | _ => []
         end) ->
  ev = EvOk (w_resolve w (ps (a_out a))) /\
  exists size, w_ffmpeg w cmd = (0%Z, Some size) /\ (0 < size)%Z.
Proof.
  destruct (w_ffmpeg w cmd) as [[|c|c] [size|]]; simpl; try tauto.
  destruct (0 <? size)%Z eqn:E; simpl; [|tauto].
  intros [<-|[]]. split; [reflexivity|]. exists size. split; [reflexivity|].
  apply Z.ltb_lt. exact E.
Qed.

(** A run that ran ffmpeg with [cmd] is [run_and_verify] on [cmd] after
    the presence check and possibly the gap warning. *)
Lemma main_reaches (ps : string -> string) (pj : string -> string -> string)
    (w : world) (a : args) (ev : event) :
  In ev (fst (main ps pj w a)) ->
  is_ffmpeg_run ev = true \/ is_ok_message ev = true \/ ev = EvWarnGaps ->
  exists pre cmd,
    Forall (fun ev => ev = EvWhichFfmpeg \/ ev = EvWarnGaps) pre /\
    main ps pj w a = (pre ++ fst (run_and_verify ps w a cmd),
                      snd (run_and_verify ps w a cmd)).
Proof.
  intros Hin Hk.
  destruct (main_shape ps pj w a) as [[pre [e [Hm Hpre]]]|H]; [|exact H].
  rewrite Hm in Hin. simpl in Hin.
  rewrite Forall_forall in Hpre. apply Hpre in Hin. subst ev.
  simpl in Hk. destruct Hk as [Hk|[Hk|Hk]]; discriminate.
Qed.

Lemma run_event_cmd (ps : string -> string) (w : world) (a : args)
    (pre : list event) (cmd cmd' : list string) :
  Forall (fun ev => ev = EvWhichFfmpeg \/ ev = EvWarnGaps) pre ->
  In (EvRunFfmpeg cmd') (pre ++ fst (run_and_verify ps w a cmd)) -> cmd' = cmd.
Proof.
  intros Hpre Hin. rewrite run_and_verify_fst in Hin.
  apply in_app_or in Hin as [Hin|Hin].
  - rewrite Forall_forall in Hpre. apply Hpre in Hin as [H|H]; discriminate.
  - simpl in Hin. destruct Hin as [H|[H|H]]; [discriminate|congruence|].
    apply ok_events_only in H as [H _]. discriminate.
Qed.

Lemma ok_event_after (ps : string -> string) (w : world) (a : args)
    (pre : list event) (cmd : list string) (r : string) :
  Forall (fun ev => ev = EvWhichFfmpeg \/ ev = EvWarnGaps) pre ->
  In (EvOk r) (pre ++ fst (run_and_verify ps w a cmd)) ->
  r = w_resolve w (ps (a_out a)) /\
  exists size, w_ffmpeg w cmd = (0%Z, Some size) /\ (0 < size)%Z.
Proof.
  intros Hpre Hin. rewrite run_and_verify_fst in Hin.
  apply in_app_or in Hin as [Hin|Hin].
  - rewrite Forall_forall in Hpre. apply Hpre in Hin as [H|H]; discriminate.
  - simpl in Hin. destruct Hin as [H|[H|H]]; try discriminate.
    apply ok_events_only in H as [H Hs]. injection H as ->. auto.
Qed.

Lemma gaps_cons2 (x y : Z) (t : list Z) :
  gaps (x :: y :: t) =
  (if (y =? x + 1)%Z then [] else [y]) ++ gaps (y :: t).
Proof. unfold gaps. simpl. destruct (y =? x + 1)%Z; reflexivity. Qed.

Lemma gaps_nonempty (nums : list Z) : gaps nums <> [] <-> has_gap nums.
Proof.
  unfold has_gap.
  induction nums as [|x t IH].
  - split; [unfold gaps; simpl; congruence|].
    intros [l1 [x [y [l2 [H _]]]]]. destruct l1; discriminate.
  - destruct t as [|y t'].
    + split; [unfold gaps; simpl; congruence|].
      intros [l1 [x' [y [l2 [H _]]]]].
      destruct l1 as [|? [|? ?]]; discriminate.
    + rewrite gaps_cons2. destruct (y =? x + 1)%Z eqn:E.
      * simpl. rewrite IH. apply Z.eqb_eq in E. split.
        -- intros [l1 [x' [y' [l2 [H Hne]]]]].
           exists (x :: l1), x', y', l2. simpl. rewrite H. auto.
        -- intros [l1 [x' [y' [l2 [H Hne]]]]].
           destruct l1 as [|z l1]; simpl in H; injection H as H1 H2.
           ++ subst. contradiction.
           ++ exists l1, x', y', l2. auto.
      * split; [intros _|simpl; congruence].
        exists [], x, y, t'. split; [reflexivity|].
        apply Z.eqb_neq in E. exact E.
Qed.

(* ------------------------------------------------------------------ *)
(** ** Claims on the gap warning and the ends of a run *)

(** C3: the warning is emitted iff there are at least two numbers and some
    adjacent pair differs by other than 1; the check never fails, and a run
    that printed the warning goes on to run ffmpeg.  For [3;4;5;7;8] the
    only gap is the pair (5,7) and the warning is printed; for [1;2;3;4]
    nothing is printed. *)
Theorem warn_gaps_iff_gap (nums : list Z) :
  snd (warn_gaps nums) = inr tt /\
  (fst (warn_gaps nums) = [EvWarnGaps] <-> 2 <= length nums /\ has_gap nums) /\
  (fst (warn_gaps nums) = [] <-> ~ (2 <= length nums /\ has_gap nums)) /\
  (forall ps pj w a, In EvWarnGaps (fst (main ps pj w a)) ->
     exists cmd, In (EvRunFfmpeg cmd) (fst (main ps pj w a))) /\
  filter (fun ab => negb (snd ab =? fst ab + 1)%Z)
         (combine [3;4;5;7;8]%Z (tl [3;4;5;7;8]%Z)) = [(5, 7)%Z] /\
  gaps [3;4;5;7;8]%Z = [7%Z] /\
  fst (warn_gaps [3;4;5;7;8]%Z) = [EvWarnGaps] /\
  fst (warn_gaps [1;2;3;4]%Z) = [].
Proof.
  assert (Hw : forall nums, fst (warn_gaps nums) =
            if (2 <=? length nums) && negb (match gaps nums with [] => true | _ => false end)
            then [EvWarnGaps] else []).
  { intros l. unfold warn_gaps. destruct (2 <=? length l); [|reflexivity].
    destruct (gaps l); reflexivity. }
  split; [|split; [|split; [|split; [|split]]]].
  - unfold warn_gaps. destruct (2 <=? length nums); [|reflexivity].
    destruct (gaps nums); reflexivity.
  - rewrite Hw, <- gaps_nonempty.
    destruct (2 <=? length nums) eqn:E2; simpl.
    + apply Nat.leb_le in E2. destruct (gaps nums); simpl.
      * split; [discriminate|]. intros [_ H]. congruence.
      * split; [intros _; split; [lia|discriminate]|reflexivity].
    + apply Nat.leb_gt in E2. split; [discriminate|]. intros [H _]. lia.
  - rewrite Hw, <- gaps_nonempty.
    destruct (2 <=? length nums) eqn:E2; simpl.
    + apply Nat.leb_le in E2. destruct (gaps nums); simpl.
      * split; [|reflexivity]. intros _ [_ H]. congruence.
      * split; [discriminate|]. intros H. exfalso. apply H.
        split; [lia|discriminate].
    + apply Nat.leb_gt in E2. split; [|reflexivity]. intros _ [H _]. lia.
  - intros ps pj w a Hin.
    destruct (main_reaches ps pj w a EvWarnGaps Hin) as [pre [cmd [Hpre Hm]]];
      [auto|].
    exists cmd. rewrite Hm. simpl. apply in_or_app. right.
    rewrite run_and_verify_fst. simpl. auto.
  - reflexivity.
  - split; [reflexivity|]. split; reflexivity.
Qed.

(** C4: when ffmpeg returned 0 but the output path is missing or has size
    at most 0, the run fails with [OutputVerificationError], exit status 1,
    and prints no success line; the success line, carrying the resolved
    output path, is printed only when ffmpeg returned 0 and the output
    exists with size > 0, and the run then exits 0. *)
Theorem main_output_verification (ps : string -> string)
    (pj : string -> string -> string) (w : world) (a : args) :
  (forall cmd, In (EvRunFfmpeg cmd) (fst (main ps pj w a)) ->
     fst (w_ffmpeg w cmd) = 0%Z ->
     (forall size, snd (w_ffmpeg w cmd) = Some size -> (size <= 0)%Z) ->
     snd (main ps pj w a) = inl OutputVerificationError /\
     exit_status (main ps pj w a) = 1%Z /\
     (forall r, ~ In (EvOk r) (fst (main ps pj w a)))) /\
  (forall r, In (EvOk r) (fst (main ps pj w a)) ->
     exists cmd size,
       In (EvRunFfmpeg cmd) (fst (main ps pj w a)) /\
       w_ffmpeg w cmd = (0%Z, Some size) /\ (0 < size)%Z /\
       r = w_resolve w (ps (a_out a)) /\
       snd (main ps pj w a) = inr tt /\ exit_status (main ps pj w a) = 0%Z).
Proof.
  split.
  - intros cmd Hin H0 Hsz.
    destruct (main_reaches ps pj w a _ Hin) as [pre [cmd0 [Hpre Hm]]]; [auto|].
    rewrite Hm in *. simpl in Hin.
    pose proof (run_event_cmd ps w a pre cmd0 cmd Hpre Hin) as ->.
    assert (Hs : snd (run_and_verify ps w a cmd0) = inl OutputVerificationError).
    { rewrite run_and_verify_snd.
      destruct (w_ffmpeg w cmd0) as [code out]. simpl in H0, Hsz. subst code.
      simpl. destruct out as [size|]; [|reflexivity].
      specialize (Hsz size eq_refl).
      destruct (0 <? size)%Z eqn:E; [apply Z.ltb_lt in E; lia|reflexivity]. }
    unfold exit_status. simpl. rewrite Hs. split; [reflexivity|].
    split; [reflexivity|]. intros r Hr.
    destruct (ok_event_after ps w a pre cmd0 r Hpre Hr) as [_ [size [Hf Hp]]].
    rewrite Hf in H0, Hsz. simpl in Hsz. specialize (Hsz size eq_refl). lia.
  - intros r Hin.
    destruct (main_reaches ps pj w a _ Hin) as [pre [cmd [Hpre Hm]]]; [auto|].
    rewrite Hm in *. simpl in Hin.
    destruct (ok_event_after ps w a pre cmd r Hpre Hin) as [-> [size [Hf Hp]]].
    assert (Hs : snd (run_and_verify ps w a cmd) = inr tt).
    { rewrite run_and_verify_snd, Hf. simpl.
      apply Z.ltb_lt in Hp. rewrite Hp. reflexivity. }
    exists cmd, size. simpl. repeat split; auto.
    + apply in_or_app. right. rewrite run_and_verify_fst. simpl. auto.
    + unfold exit_status. simpl. rewrite Hs. reflexivity.
Qed.

(** C5: when ffmpeg returned a non-zero code the run fails with
    [EncodeError] carrying that code, exits 1 and prints no success line,
    whatever the output file looks like; no run calls ffmpeg more than
    once. *)
Theorem main_encode_error (ps : string -> string)
    (pj : string -> string -> string) (w : world) (a : args) :
  (forall cmd, In (EvRunFfmpeg cmd) (fst (main ps pj w a)) ->
     fst (w_ffmpeg w cmd) <> 0%Z ->
     snd (main ps pj w a) = inl (EncodeError (fst (w_ffmpeg w cmd))) /\
     exit_status (main ps pj w a) = 1%Z /\
     (forall r, ~ In (EvOk r) (fst (main ps pj w a))) /\
     length (filter is_ffmpeg_run (fst (main ps pj w a))) = 1) /\
  length (filter is_ffmpeg_run (fst (main ps pj w a))) <= 1.
Proof.
  assert (Hpre_quiet : forall pre,
            Forall (fun ev => ev = EvWhichFfmpeg \/ ev = EvWarnGaps) pre ->
            filter is_ffmpeg_run pre = []).
  { induction 1 as [|ev t [-> | ->] _ IH]; simpl; auto. }
  assert (Hcount : forall pre cmd,
            Forall (fun ev => ev = EvWhichFfmpeg \/ ev = EvWarnGaps) pre ->
            length (filter is_ffmpeg_run (pre ++ fst (run_and_verify ps w a cmd))) = 1).
  { intros pre cmd Hpre. rewrite filter_app, Hpre_quiet by exact Hpre.
    rewrite run_and_verify_fst. simpl.
    destruct (w_ffmpeg w cmd) as [[|c|c] [size|]]; simpl; try reflexivity.
    destruct (0 <? size)%Z; reflexivity. }
  split.
  - intros cmd Hin Hne.
    destruct (main_reaches ps pj w a _ Hin) as [pre [cmd0 [Hpre Hm]]]; [auto|].
    rewrite Hm in *. simpl in Hin.
    pose proof (run_event_cmd ps w a pre cmd0 cmd Hpre Hin) as ->.
    assert (Hs : snd (run_and_verify ps w a cmd0) = inl (EncodeError (fst (w_ffmpeg w cmd0)))).
    { rewrite run_and_verify_snd.
      destruct (w_ffmpeg w cmd0) as [code out]. simpl in Hne |- *.
      apply Z.eqb_neq in Hne. rewrite Hne. reflexivity. }
    unfold exit_status. simpl. rewrite Hs.
    split; [reflexivity|]. split; [reflexivity|]. split.
    + intros r Hr.
      destruct (ok_event_after ps w a pre cmd0 r Hpre Hr) as [_ [size [Hf _]]].
      rewrite Hf in Hne. simpl in Hne. congruence.
    + apply Hcount. exact Hpre.
  - destruct (main_shape ps pj w a) as [[pre [e [Hm Hpre]]]|[pre [cmd [Hpre Hm]]]];
      rewrite Hm; simpl.
    + assert (filter is_ffmpeg_run pre = []) as ->; [|simpl; lia].
      apply Hpre_quiet. eapply Forall_impl; [|exact Hpre]. simpl. auto.
    + rewrite Hcount by exact Hpre. lia.
Qed.

(** C6: an existing directory with no entry whose lower-cased suffix is
    ".png" ends the run with [EmptyInputError] and status 1 before any
    event: ffmpeg is neither looked up nor run. *)
Theorem main_empty_input (ps : string -> string)
    (pj : string -> string -> string) (w : world) (a : args)
    (Hdir : w_is_dir w = true)
    (Hnone : forall n, In n (w_listing w) -> lower (suffix n) <> ".png"%string) :
  main ps pj w a = ([], inl EmptyInputError) /\
  exit_status (main ps pj w a) = 1%Z.
Proof.
  assert (Hp : collect_pngs (w_listing w) = []).
  { unfold collect_pngs.
    assert (filter (fun n => String.eqb (lower (suffix n)) ".png") (w_listing w) = [])
      as ->; [|reflexivity].
    induction (w_listing w) as [|n t IH]; simpl; [reflexivity|].
    destruct (String.eqb (lower (suffix n)) ".png") eqn:E.
    - apply String.eqb_eq in E. exfalso. apply (Hnone n); simpl; auto.
    - apply IH. intros m Hm. apply Hnone. simpl. auto. }
  unfold main. rewrite Hdir, Hp. simpl. split; reflexivity.
Qed.

(** C8: [infer_padding_and_prefix] fails only with [InferenceError], and
    exactly when no candidate matches [^(.*?)(\d+)\.png$]; in [main] that
    failure (reached when an option is missing) ends the run with status 1
    right after the presence check. *)
Theorem infer_fails_iff_no_match (files : list string) :
  (forall e, infer_padding_and_prefix files = inl e -> e = InferenceError) /\
  (infer_padding_and_prefix files = inl InferenceError <->
   forall f, In f files -> forall p d, ~ frame_shape f p d) /\
  (forall ps pj w a,
     w_is_dir w = true -> w_which_ffmpeg w = true ->
     (a_prefix a = None \/ a_pad a = None) ->
     collect_pngs (w_listing w) <> [] ->
     infer_padding_and_prefix (collect_pngs (w_listing w)) = inl InferenceError ->
     main ps pj w a = ([EvWhichFfmpeg], inl InferenceError) /\
     exit_status (main ps pj w a) = 1%Z).
Proof.
  split; [|split].
  - unfold infer_padding_and_prefix. intros e.
    destruct (first_frame_match (sort_names files)); congruence.
  - unfold infer_padding_and_prefix.
    assert (Hiff : first_frame_match (sort_names files) = None <->
                   forall f, In f files -> forall p d, ~ frame_shape f p d).
    { rewrite first_frame_match_none, Forall_forall.
      pose proof (sort_by_perm String.leb files) as Hperm. split.
      - intros H f Hf. apply frame_match_none_shape. apply H.
        eapply Permutation_in; [exact Hperm|exact Hf].
      - intros H f Hf. apply frame_match_none_shape. apply H.
        eapply Permutation_in; [symmetry; exact Hperm|exact Hf]. }
    rewrite <- Hiff.
    destruct (first_frame_match (sort_names files)); split; congruence.
  - intros ps pj w a Hdir Hwhich Hopt Hne Hinf.
    unfold main. rewrite Hdir. simpl negb. cbv iota beta.
    destruct (collect_pngs (w_listing w)) as [|f fs] eqn:Hp; [congruence|].
    assert (Hr : resolve_scheme a (f :: fs) = ([], inl InferenceError)).
    { unfold resolve_scheme. rewrite Hinf.
      destruct Hopt as [-> | ->]; [reflexivity|].
      destruct (a_prefix a); reflexivity. }
    unfold emit. rewrite bind_inr. cbv beta. rewrite Hwhich. simpl negb.
    cbv iota beta. rewrite Hr. simpl. split; reflexivity.
Qed.

(** C10: an explicit prefix or padding alone is ignored: the run is the
    same as with neither option, both values being inferred; only when both
    are given are they used as they are. *)
Theorem explicit_scheme_needs_both (ps : string -> string)
    (pj : string -> string -> string) (w : world) (a : args)
    (p : string) (k : Z) :
  let with_opts po ko :=
    {| a_indir := a_indir a; a_out := a_out a; a_prefix := po; a_pad := ko;
       a_fps := a_fps a; a_crf := a_crf a; a_preset := a_preset a |} in
  main ps pj w (with_opts (Some p) None) = main ps pj w (with_opts None None) /\
  main ps pj w (with_opts None (Some k)) = main ps pj w (with_opts None None) /\
  (forall pngs, resolve_scheme (with_opts (Some p) (Some k)) pngs = ret (p, k)).
Proof.
  intros with_opts. split; [|split]; [reflexivity | reflexivity | reflexivity].
Qed.

(* ------------------------------------------------------------------ *)
(** ** Re-matching the enumerated candidates *)

Lemma substring_all (s : string) : substring 0 (String.length s) s = s.
Proof. induction s; simpl; congruence. Qed.

Lemma substring_split (i : nat) (s : string) :
  i <= String.length s ->
  s = (substring 0 i s ++ substring i (String.length s - i) s)%string.
Proof.
  revert i. induction s as [|c t IH]; intros i Hi; simpl in Hi.
  - destruct i; [reflexivity|lia].
  - destruct i as [|i'].
    + simpl. rewrite substring_all. reflexivity.
    + simpl. rewrite <- IH by lia. reflexivity.
Qed.

Lemma suffix_is_suffix (name : string) :
  suffix name <> EmptyString ->
  exists q, name = (q ++ suffix name)%string.
Proof.
  unfold suffix. destruct (rfind_dot_from 0 name) as [i|]; [|congruence].
  destruct ((0 <? i) && (i <? String.length name - 1)) eqn:E; [|congruence].
  intros _. apply andb_true_iff in E as [_ E]. apply Nat.ltb_lt in E.
  exists (substring 0 i name). apply substring_split. lia.
Qed.

(** An enumerated candidate does not end in a newline. *)
Lemma png_no_final_newline (name x : string) :
  lower (suffix name) = ".png"%string ->
  name <> (x ++ String newline EmptyString)%string.
Proof.
  intros Hs Hn.
  assert (Hne : suffix name <> EmptyString) by (intros E; rewrite E in Hs; discriminate).
  destruct (suffix_is_suffix name Hne) as [q Hq].
  assert (Hlen : String.length (suffix name) = 4)
    by (rewrite <- lower_length, Hs; reflexivity).
  remember (suffix name) as sfx eqn:Esfx. clear Esfx Hne.
  rewrite Hn in Hq. apply str_app_eq_app in Hq as [m [[_ Hm]|[_ Hm]]].
  - destruct m as [|y m]; simpl in Hm.
    + subst sfx. discriminate.
    + injection Hm as _ Hm. destruct m; simpl in Hm; [|discriminate].
      subst sfx. discriminate.
  - subst sfx. rewrite str_length_app in Hlen. simpl in Hlen.
    rewrite lower_app in Hs.
    destruct m as [|c1 [|c2 [|c3 [|c4 m]]]]; simpl in Hlen; try lia.
    simpl in Hs. discriminate.
Qed.

Lemma num_match_spec (prefix name digits : string) :
  num_match prefix name = Some digits <->
  exists p' ext tail,
    name = (p' ++ digits ++ ext ++ tail)%string /\ lower p' = lower prefix /\
    digits <> EmptyString /\ all_digits digits = true /\
    lower ext = ".png"%string /\
    (tail = EmptyString \/ tail = String newline EmptyString).
Proof.
  unfold num_match. split.
  - destruct (lit_ci prefix name) as [r|] eqn:E; [|discriminate]. intros H.
    apply lit_ci_spec in E as [p' [-> Hp]].
    apply digits_then_ext_spec in H as [r0 [-> [Hne [Hall Hr0]]]].
    apply ext_end_spec in Hr0 as [e [tail [-> [He Ht]]]].
    exists p', e, tail. repeat split; auto.
  - intros [p' [e [tail [-> [Hp [Hne [Hall [He Ht]]]]]]]].
    assert (lit_ci prefix (p' ++ digits ++ e ++ tail) = Some (digits ++ e ++ tail)%string)
      as -> by (apply lit_ci_spec; exists p'; auto).
    apply digits_then_ext_spec. exists (e ++ tail)%string. repeat split; auto.
    apply ext_end_spec. exists e, tail. auto.
Qed.

Lemma in_collect_pngs (listing : list string) (f : string) :
  In f (collect_pngs listing) -> In f listing /\ lower (suffix f) = ".png"%string.
Proof.
  unfold collect_pngs, sort_names. intros H.
  eapply Permutation_in in H; [|symmetry; apply sort_by_perm].
  apply filter_In in H as [H1 H2]. apply String.eqb_eq in H2. auto.
Qed.

(** For an enumerated candidate, the re-matching is the shape [num_shape]. *)
Lemma num_match_enumerated (prefix : string) (listing : list string)
    (f digits : string) :
  In f (collect_pngs listing) ->
  (num_match prefix f = Some digits <-> num_shape prefix f digits).
Proof.
  intros Hin. apply in_collect_pngs in Hin as [_ Hsfx].
  rewrite num_match_spec. unfold num_shape. split.
  - intros [p' [e [tail [Hf [Hp [Hne [Hall [He [->| ->]]]]]]]]].
    + exists p', e. rewrite str_app_nil_r in Hf. repeat split; auto.
    + exfalso. apply (png_no_final_newline f (p' ++ digits ++ e) Hsfx).
      rewrite Hf, !str_app_assoc. reflexivity.
  - intros [p' [e [Hf [Hp [Hne [Hall He]]]]]].
    exists p', e, EmptyString. rewrite str_app_nil_r. repeat split; auto.
Qed.

Lemma matched_numbers_flat_map (prefix : string) (files : list string) :
  matched_numbers prefix files =
  flat_map (fun f => match num_match prefix f with
                     | Some d => [int_of_digits d]
                     | None => []
                     end) files.
Proof.
  induction files as [|f t IH]; simpl; [reflexivity|].
  destruct (num_match prefix f); simpl; congruence.
Qed.

Lemma sorted_leb_le (l : list Z) :
  Sorted (fun a b => Z.leb a b = true) l -> Sorted Z.le l.
Proof.
  induction 1 as [|x t Ht IH Hhd]; constructor; [exact IH|].
  destruct Hhd; constructor. apply Z.leb_le. assumption.
Qed.

(* ------------------------------------------------------------------ *)
(** ** Claims on the frame numbers *)

(** C7: over the enumerated candidates, the numbers are sorted ascending
    and are, up to order, [int] of the digit run of each candidate the
    re-matching pattern accepts, the others contributing nothing (the
    step is pure: it reports nothing and cannot fail); a candidate is
    accepted with digit run [d] exactly when it is the prefix (any case),
    then [d], then ".png" (any case), with nothing before or after. *)
Theorem extract_numbers_spec (prefix : string) (listing : list string) :
  Sorted Z.le (extract_numbers prefix (collect_pngs listing)) /\
  Permutation (extract_numbers prefix (collect_pngs listing))
    (flat_map (fun f => match num_match prefix f with
                        | Some d => [int_of_digits d]
                        | None => []
                        end) (collect_pngs listing)) /\
  (forall f d, In f (collect_pngs listing) ->
     (num_match prefix f = Some d <-> num_shape prefix f d)).
Proof.
  split; [|split].
  - apply sorted_leb_le. apply sort_by_sorted. apply z_leb_flip.
  - unfold extract_numbers, sort_ints. rewrite <- matched_numbers_flat_map.
    symmetry. apply sort_by_perm.
  - intros f d Hin. apply num_match_enumerated with (listing := listing). exact Hin.
Qed.

(** C2, as the claim states it, fails: the inferred width comes from the
    first sorted match only.  With [frame-1.png] and [frame-10.png] the
    scheme is [("frame-", 1)] while frame 10 has two digits. *)
Lemma naming_scheme_pad_not_checked :
  ~ (forall listing prefix pad,
       infer_padding_and_prefix (collect_pngs listing) = inr (prefix, pad) ->
       forall k, In k (extract_numbers prefix (collect_pngs listing)) ->
         String.length (str_of_int k) <= pad).
Proof.
  intros H.
  specialize (H ["frame-1.png"; "frame-10.png"]%string "frame-"%string 1).
  specialize (H ltac:(vm_compute; reflexivity) 10%Z ltac:(vm_compute; auto)).
  vm_compute in H. lia.
Qed.

(** C2 (amended): an inferred width is the digit count of one enumerated
    candidate (the first sorted match, C1) and is not compared with the
    other frame numbers; every number that enters the sequence comes from
    an enumerated candidate that is exactly the prefix (any case), its
    digit run and ".png". *)
Theorem naming_scheme_prefix_precedes (listing : list string) :
  (forall prefix pad,
     infer_padding_and_prefix (collect_pngs listing) = inr (prefix, pad) ->
     exists f digits, In f (collect_pngs listing) /\
       frame_shape f prefix digits /\ String.length digits = pad) /\
  (forall prefix k, In k (extract_numbers prefix (collect_pngs listing)) ->
     exists f digits, In f (collect_pngs listing) /\
       num_shape prefix f digits /\ k = int_of_digits digits).
Proof.
  split.
  - intros prefix pad H. unfold infer_padding_and_prefix in H.
    destruct (first_frame_match (sort_names (collect_pngs listing))) as [r|] eqn:E;
      [|discriminate].
    injection H as ->. apply first_frame_match_spec in E
      as [before [f [after [d [Hl [_ [Hf Hd]]]]]]].
    exists f, d. split; [|split; [apply frame_match_spec; exact Hf|exact Hd]].
    eapply Permutation_in; [symmetry; apply (sort_by_perm String.leb)|].
    unfold sort_names in Hl. rewrite Hl. apply in_or_app. simpl. auto.
  - intros prefix k Hk. unfold extract_numbers, sort_ints in Hk.
    eapply Permutation_in in Hk; [|symmetry; apply sort_by_perm].
    rewrite matched_numbers_flat_map in Hk. apply in_flat_map in Hk as [f [Hf Hk]].
    destruct (num_match prefix f) as [d|] eqn:E; [|destruct Hk].
    destruct Hk as [<-|[]].
    exists f, d. split; [exact Hf|]. split; [|reflexivity].
    apply (num_match_enumerated prefix listing f d Hf). exact E.
Qed.

(** Witness of C6: a directory holding only non-PNG entries (a hidden
    [.png], a [.png.bak], a text file). *)
Lemma main_empty_input_witness :
  let w := {| w_is_dir := true;
              w_listing := [".png"; "frame-1.png.bak"; "notes.txt"]%string;
              w_which_ffmpeg := true;
              w_ffmpeg := fun _ => (0%Z, Some 1%Z);
              w_resolve := fun p => p |} in
  let a := {| a_indir := "frames_png"; a_out := "dropfilm.mp4";
              a_prefix := None; a_pad := None; a_fps := 30; a_crf := 18;
              a_preset := "medium" |}%string in
  w_is_dir w = true /\
  (forall n, In n (w_listing w) -> lower (suffix n) <> ".png"%string) /\
  main (fun p => p) (fun d n => (d ++ "/" ++ n)%string) w a = ([], inl EmptyInputError) /\
  exit_status (main (fun p => p) (fun d n => (d ++ "/" ++ n)%string) w a) = 1%Z.
Proof.
  intros w a.
  assert (Hn : forall n, In n (w_listing w) -> lower (suffix n) <> ".png"%string).
  { intros n Hin. simpl in Hin.
    destruct Hin as [<-|[<-|[<-|[]]]]; vm_compute; discriminate. }
  split; [reflexivity|]. split; [exact Hn|].
  apply (main_empty_input (fun p => p) (fun d n => (d ++ "/" ++ n)%string) w a
           eq_refl Hn).
Defined.

(** Witness of C4: ffmpeg returns 0 but writes an empty file. *)
Lemma main_output_verification_witness :
  In (EvRunFfmpeg example_cmd)
     (fst (main example_path_str example_path_join
             (example_world (fun _ => (0%Z, Some 0%Z))) example_args)) /\
  snd (main example_path_str example_path_join
         (example_world (fun _ => (0%Z, Some 0%Z))) example_args)
  = inl OutputVerificationError.
Proof.
  assert (Hin : In (EvRunFfmpeg example_cmd)
     (fst (main example_path_str example_path_join
             (example_world (fun _ => (0%Z, Some 0%Z))) example_args)))
    by (vm_compute; auto 10).
  split; [exact Hin|].
  apply (proj1 (main_output_verification example_path_str example_path_join
                  (example_world (fun _ => (0%Z, Some 0%Z))) example_args)
               example_cmd Hin eq_refl).
  intros size Hs. injection Hs as <-. lia.
Defined.

(** Witness of C5: ffmpeg returns 1 after writing a partial file. *)
Lemma main_encode_error_witness :
  In (EvRunFfmpeg example_cmd)
     (fst (main example_path_str example_path_join
             (example_world (fun _ => (1%Z, Some 4096%Z))) example_args)) /\
  snd (main example_path_str example_path_join
         (example_world (fun _ => (1%Z, Some 4096%Z))) example_args)
  = inl (EncodeError 1).
Proof.
  assert (Hin : In (EvRunFfmpeg example_cmd)
     (fst (main example_path_str example_path_join
             (example_world (fun _ => (1%Z, Some 4096%Z))) example_args)))
    by (vm_compute; auto 10).
  split; [exact Hin|].
  apply (proj1 (main_encode_error example_path_str example_path_join
                  (example_world (fun _ => (1%Z, Some 4096%Z))) example_args)
               example_cmd Hin ltac:(discriminate)).
Defined.

(** Witness of C2 (amended): the clip frames, scheme [("clip_", 3)] and
    frame number 10. *)
Lemma naming_scheme_prefix_precedes_witness :
  exists f digits, In f (collect_pngs clip_files) /\
    num_shape "clip_" f digits /\ 10%Z = int_of_digits digits.
Proof.
  apply (proj2 (naming_scheme_prefix_precedes clip_files) "clip_"%string 10%Z).
  vm_compute. auto 20.
Defined.

(* ------------------------------------------------------------------ *)
(** ** [main] branch by branch *)

Lemma resolve_scheme_events (a : args) (pngs : list string) :
  fst (resolve_scheme a pngs) = [].
Proof.
  destruct (resolve_scheme_cases a pngs) as [[e ->]|[s ->]]; reflexivity.
Qed.

Lemma main_eq (ps : string -> string) (pj : string -> string -> string)
    (w : world) (a : args) :
  main ps pj w a =
  if negb (w_is_dir w) then ([], inl NotFoundError) else
  match collect_pngs (w_listing w) with
  | [] => ([], inl EmptyInputError)
  | f :: fs =>
      if negb (w_which_ffmpeg w) then ([EvWhichFfmpeg], inl ToolMissingError) else
      match snd (resolve_scheme a (f :: fs)) with
      | inl e => ([EvWhichFfmpeg], inl e)
      | inr (prefix, pad) =>
          let cmd := ffmpeg_cmd ps a (pj (a_indir a) (build_pattern prefix pad)) in
          (EvWhichFfmpeg :: fst (warn_gaps (extract_numbers prefix (f :: fs)))
             ++ fst (run_and_verify ps w a cmd),
           snd (run_and_verify ps w a cmd))
      end
  end.
Proof.
  unfold main.
  destruct (w_is_dir w); simpl negb; cbv iota beta; [|reflexivity].
  destruct (collect_pngs (w_listing w)) as [|f fs]; [reflexivity|].
  unfold emit. rewrite bind_inr. cbv beta.
  destruct (w_which_ffmpeg w); simpl negb; cbv iota beta; [|reflexivity].
  destruct (resolve_scheme_cases a (f :: fs)) as [[e ->]|[[prefix pad] ->]];
    [reflexivity|].
  rewrite bind_inr. cbv beta iota. simpl snd.
  destruct (warn_gaps_cases (extract_numbers prefix (f :: fs))) as [-> | ->];
    rewrite bind_inr; reflexivity.
Qed.

Lemma run_and_verify_ok (ps : string -> string) (w : world) (a : args)
    (cmd : list string) :
  (snd (run_and_verify ps w a cmd) = inr tt <->
   exists r, In (EvOk r) (fst (run_and_verify ps w a cmd))) /\
  (forall r, In (EvOk r) (fst (run_and_verify ps w a cmd)) ->
   fst (run_and_verify ps w a cmd) =
     [EvInfoRunning (String.concat " " cmd); EvRunFfmpeg cmd; EvOk r]).
Proof.
  rewrite run_and_verify_fst, run_and_verify_snd.
  destruct (w_ffmpeg w cmd) as [[|c|c] [size|]]; simpl;
    try (split; [split; [discriminate|intros [r [H|[H|[]]]]; discriminate]
                |intros r [H|[H|[]]]; discriminate]).
  destruct (0 <? size)%Z; simpl.
  - split; [split; [intros _; eexists; right; right; left; reflexivity|auto]|].
    intros r [H|[H|[H|[]]]]; try discriminate. rewrite H. reflexivity.
  - split; [split; [discriminate|intros [r [H|[H|[]]]]; discriminate]|].
    intros r [H|[H|[]]]; discriminate.
Qed.

Lemma warn_gaps_no_ok (nums : list Z) (r : string) :
  ~ In (EvOk r) (fst (warn_gaps nums)).
Proof.
  destruct (warn_gaps_cases nums) as [-> | ->]; simpl; [auto|].
  intros [H|[]]; discriminate.
Qed.

(** The success line is printed exactly when the run exits with status 0,
    and then it is the last event of the run and printed once. *)
Theorem main_success_iff_ok (ps : string -> string)
    (pj : string -> string -> string) (w : world) (a : args) :
  (exit_status (main ps pj w a) = 0%Z <->
   exists r, In (EvOk r) (fst (main ps pj w a))) /\
  (forall r, In (EvOk r) (fst (main ps pj w a)) ->
   exists pre, fst (main ps pj w a) = pre ++ [EvOk r] /\
               forall r', ~ In (EvOk r') pre).
Proof.
  rewrite main_eq.
  destruct (w_is_dir w); simpl negb; cbv iota beta;
    [|unfold exit_status; simpl; split; [split; [discriminate|intros [r []]]|intros r []]].
  destruct (collect_pngs (w_listing w)) as [|f fs];
    [unfold exit_status; simpl; split; [split; [discriminate|intros [r []]]|intros r []]|].
  destruct (w_which_ffmpeg w); simpl negb; cbv iota beta;
    [|unfold exit_status; simpl;
      split; [split; [discriminate|intros [r [H|[]]]; discriminate]
             |intros r [H|[]]; discriminate]].
  destruct (snd (resolve_scheme a (f :: fs))) as [e|[prefix pad]];
    [unfold exit_status; simpl;
      split; [split; [discriminate|intros [r [H|[]]]; discriminate]
             |intros r [H|[]]; discriminate]|].
  cbv zeta.
  set (cmd := ffmpeg_cmd ps a (pj (a_indir a) (build_pattern prefix pad))).
  set (wg := fst (warn_gaps (extract_numbers prefix (f :: fs)))).
  assert (Hwg : forall r, ~ In (EvOk r) wg) by (intros r; apply warn_gaps_no_ok).
  destruct (run_and_verify_ok ps w a cmd) as [Hiff Hlast].
  assert (Hin : forall r, In (EvOk r) (EvWhichFfmpeg :: wg ++ fst (run_and_verify ps w a cmd))
                  <-> In (EvOk r) (fst (run_and_verify ps w a cmd))).
  { intros r. simpl. rewrite in_app_iff. split.
    - intros [H|[H|H]]; [discriminate|exfalso; exact (Hwg r H)|exact H].
    - auto. }
  split.
  - unfold exit_status. simpl fst; simpl snd.
    setoid_rewrite Hin. rewrite <- Hiff.
    destruct (snd (run_and_verify ps w a cmd)) as [e|[]]; split; congruence.
  - intros r Hr. simpl fst in Hr. apply Hin in Hr.
    exists (EvWhichFfmpeg :: wg ++ [EvInfoRunning (String.concat " " cmd); EvRunFfmpeg cmd]).
    simpl fst. rewrite (Hlast r Hr). split.
    + simpl. rewrite <- app_assoc. reflexivity.
    + intros r' H. simpl in H. rewrite in_app_iff in H.
      destruct H as [H|[H|[H|[H|[]]]]]; try discriminate. exact (Hwg r' H).
Qed.

(** The fatal pre-checks: a missing input directory stops the run before
    anything else; an existing directory with PNG files but no ffmpeg on
    the path stops it right after the presence check, whatever the options,
    so no inference is attempted and ffmpeg is never run. *)
Theorem main_prechecks (ps : string -> string)
    (pj : string -> string -> string) (w : world) (a : args) :
  (w_is_dir w = false -> main ps pj w a = ([], inl NotFoundError)) /\
  (w_is_dir w = true -> collect_pngs (w_listing w) <> [] ->
   w_which_ffmpeg w = false ->
   main ps pj w a = ([EvWhichFfmpeg], inl ToolMissingError)).
Proof.
  rewrite main_eq. split.
  - intros H. rewrite H. reflexivity.
  - intros Hd Hp Hw. rewrite Hd, Hw. simpl negb. cbv iota beta.
    destruct (collect_pngs (w_listing w)); [congruence|reflexivity].
Qed.

(** ffmpeg is run only when the directory exists, holds PNG files, ffmpeg
    is on the path and the naming scheme resolved; the command is then the
    fixed one built from the options and the pattern of that scheme, and
    the [[INFO]] line printed just before it is the command joined with
    spaces. *)
Theorem main_ffmpeg_command (ps : string -> string)
    (pj : string -> string -> string) (w : world) (a : args)
    (cmd : list string) :
  In (EvRunFfmpeg cmd) (fst (main ps pj w a)) ->
  w_is_dir w = true /\ collect_pngs (w_listing w) <> [] /\
  w_which_ffmpeg w = true /\
  exists prefix pad,
    snd (resolve_scheme a (collect_pngs (w_listing w))) = inr (prefix, pad) /\
    cmd = ["ffmpeg"; "-y"; "-framerate"; str_of_int (a_fps a);
           "-i"; pj (a_indir a) (build_pattern prefix pad);
           "-c:v"; "libx264"; "-preset"; a_preset a;
           "-crf"; str_of_int (a_crf a); "-pix_fmt"; "yuv420p";
           ps (a_out a)]%string /\
    exists pre post,
      fst (main ps pj w a) =
      pre ++ EvInfoRunning (String.concat " " cmd) :: EvRunFfmpeg cmd :: post.
Proof.
  rewrite main_eq. intros Hin.
  destruct (w_is_dir w); simpl negb in Hin |- *; cbv iota beta in Hin |- *;
    [|destruct Hin].
  destruct (collect_pngs (w_listing w)) as [|f fs]; [destruct Hin|].
  destruct (w_which_ffmpeg w); simpl negb in Hin |- *; cbv iota beta in Hin |- *;
    [|destruct Hin as [H|[]]; discriminate].
  destruct (snd (resolve_scheme a (f :: fs))) as [e|[prefix pad]];
    [destruct Hin as [H|[]]; discriminate|].
  cbv zeta in Hin |- *.
  set (cmd0 := ffmpeg_cmd ps a (pj (a_indir a) (build_pattern prefix pad))) in *.
  assert (Hq : Forall (fun ev => ev = EvWhichFfmpeg \/ ev = EvWarnGaps)
                 (EvWhichFfmpeg :: fst (warn_gaps (extract_numbers prefix (f :: fs))))).
  { constructor; [auto|].
    destruct (warn_gaps_cases (extract_numbers prefix (f :: fs))) as [E|E]; rewrite E; simpl; auto. }
  simpl fst in Hin.
  assert (cmd = cmd0) as ->.
  { apply (run_event_cmd ps w a _ cmd0 cmd Hq). exact Hin. }
  split; [reflexivity|]. split; [discriminate|]. split; [reflexivity|].
  exists prefix, pad. split; [reflexivity|]. split; [reflexivity|].
  rewrite run_and_verify_fst. simpl fst.
  eexists (EvWhichFfmpeg :: fst (warn_gaps (extract_numbers prefix (f :: fs)))), _.
  simpl. reflexivity.
Qed.

(** With both the prefix and the padding given, inference is skipped: a run
    over an existing directory with PNG files and ffmpeg present never
    fails with [InferenceError] (even when no file has the given prefix),
    and it runs ffmpeg with the pattern built from the given values. *)
Theorem main_explicit_scheme (ps : string -> string)
    (pj : string -> string -> string) (w : world) (a : args)
    (p : string) (k : Z)
    (Hp : a_prefix a = Some p) (Hk : a_pad a = Some k)
    (Hdir : w_is_dir w = true) (Hpngs : collect_pngs (w_listing w) <> [])
    (Hwhich : w_which_ffmpeg w = true) :
  In (EvRunFfmpeg (ffmpeg_cmd ps a (pj (a_indir a) (build_pattern p k))))
     (fst (main ps pj w a)) /\
  snd (main ps pj w a) <> inl InferenceError.
Proof.
  rewrite main_eq, Hdir, Hwhich. simpl negb. cbv iota beta.
  destruct (collect_pngs (w_listing w)) as [|f fs]; [congruence|].
  unfold resolve_scheme. rewrite Hp, Hk. simpl snd. cbv iota beta zeta.
  split.
  - simpl. right. apply in_or_app. right.
    rewrite run_and_verify_fst. simpl. auto.
  - simpl. rewrite run_and_verify_snd.
    destruct (w_ffmpeg w _) as [code [size|]];
      [destruct (negb (code =? 0)%Z); [|destruct (0 <? size)%Z]|destruct (negb (code =? 0)%Z)];
      discriminate.
Qed.

(* ------------------------------------------------------------------ *)
(** ** Inference and re-matching agree on the first match *)



(* ------------------------------------------------------------------ *)
(** ** Which directory entries are enumerated *)

Lemma substring_length (i : nat) (s : string) :
  i <= String.length s -> String.length (substring 0 i s) = i.
Proof.
  revert i. induction s as [|c t IH]; intros i Hi; simpl in Hi.
  - destruct i; [reflexivity|lia].
  - destruct i as [|i']; [reflexivity|]. simpl. rewrite IH by lia. reflexivity.
Qed.

Lemma substring_app (q e : string) (m : nat) :
  substring (String.length q) m (q ++ e) = substring 0 m e.
Proof. induction q as [|c q IH]; simpl; [reflexivity|exact IH]. Qed.

Lemma rfind_dot_from_app (i : nat) (a b : string) :
  rfind_dot_from i (a ++ b) =
  match rfind_dot_from (i + String.length a) b with
  | Some j => Some j
  | None => rfind_dot_from i a
  end.
Proof.
  revert i. induction a as [|c t IH]; intros i; simpl.
  - rewrite Nat.add_0_r. destruct (rfind_dot_from i b); reflexivity.
  - rewrite IH. replace (S i + String.length t) with (i + S (String.length t)) by lia.
    destruct (rfind_dot_from (i + S (String.length t)) b); reflexivity.
Qed.

Lemma lower_char_dot (c : ascii) : lower_char c = "."%char -> c = "."%char.
Proof.
  destruct c as [[] [] [] [] [] [] [] []]; vm_compute; congruence.
Qed.

Lemma suffix_png (q e : string) :
  q <> EmptyString -> lower e = ".png"%string -> suffix (q ++ e) = e.
Proof.
  intros Hq He.
  destruct e as [|c1 [|c2 [|c3 [|c4 [|c5 e']]]]]; simpl in He; try discriminate.
  injection He as H1 H2 H3 H4.
  apply lower_char_dot in H1. subst c1.
  assert (Hnd : forall c x, lower_char c = x -> x <> "."%char -> Ascii.eqb c "." = false).
  { intros c x Hc Hx. apply Ascii.eqb_neq. intros ->. apply Hx. rewrite <- Hc. reflexivity. }
  unfold suffix. rewrite rfind_dot_from_app. simpl.
  rewrite (Hnd c4 _ H4), (Hnd c3 _ H3), (Hnd c2 _ H2) by discriminate. simpl.
  rewrite str_length_app. simpl.
  destruct q as [|x q']; [congruence|]. simpl String.length.
  replace (0 <? S (String.length q')) with true by (symmetry; apply Nat.ltb_lt; lia).
  replace (S (String.length q') <? S (String.length q') + 4 - 1) with true
    by (symmetry; apply Nat.ltb_lt; lia).
  simpl andb. cbv iota.
  replace (S (String.length q') + 4 - S (String.length q')) with 4 by lia.
  exact (substring_app (String x q') _ 4).
Qed.

Lemma suffix_split (name : string) :
  suffix name <> EmptyString ->
  exists q, q <> EmptyString /\ name = (q ++ suffix name)%string.
Proof.
  unfold suffix. destruct (rfind_dot_from 0 name) as [i|]; [|congruence].
  destruct ((0 <? i) && (i <? String.length name - 1)) eqn:E; [|congruence].
  intros _. apply andb_true_iff in E as [E0 E]. apply Nat.ltb_lt in E0, E.
  exists (substring 0 i name). split.
  - intros H. assert (Hl := substring_length i name ltac:(lia)).
    rewrite H in Hl. simpl in Hl. lia.
  - apply substring_split. lia.
Qed.

(** The enumerated candidates are exactly the directory entries made of at
    least one character followed by ".png" in any case (so a hidden file
    named ".png" or a name like "x.png.bak" is left out), listed in sorted
    order. *)
Theorem collect_pngs_spec (listing : list string) :
  Sorted (fun a b => String.leb a b = true) (collect_pngs listing) /\
  (forall f, In f (collect_pngs listing) <->
     In f listing /\
     exists q ext, q <> EmptyString /\ f = (q ++ ext)%string /\
                   lower ext = ".png"%string).
Proof.
  split; [apply sort_by_sorted, string_leb_flip|]. intros f. split.
  - intros Hin. apply in_collect_pngs in Hin as [Hl Hs]. split; [exact Hl|].
    assert (Hne : suffix f <> EmptyString) by (intros E; rewrite E in Hs; discriminate).
    destruct (suffix_split f Hne) as [q [Hq Hf]].
    exists q, (suffix f). auto.
  - intros [Hl [q [e [Hq [-> He]]]]].
    unfold collect_pngs, sort_names.
    eapply Permutation_in; [apply sort_by_perm|].
    apply filter_In. split; [exact Hl|].
    rewrite suffix_png by assumption. apply String.eqb_eq. exact He.
Qed.

(* ------------------------------------------------------------------ *)
(** ** The order of the directory listing does not matter *)

Lemma ascii_compare_lt (x y : ascii) :
  Ascii.compare x y = Lt <-> (N_of_ascii x < N_of_ascii y)%N.
Proof. unfold Ascii.compare. apply N.compare_lt_iff. Qed.

Lemma ascii_compare_eq (x y : ascii) : Ascii.compare x y = Eq <-> x = y.
Proof.
  split; [apply Ascii.compare_eq_iff|].
  intros ->. unfold Ascii.compare. apply N.compare_refl.
Qed.

Lemma string_compare_lt_trans (a b c : string) :
  String.compare a b = Lt -> String.compare b c = Lt -> String.compare a c = Lt.
Proof.
  revert b c. induction a as [|x a' IH]; intros b c Hab Hbc.
  - destruct b; [discriminate|]. destruct c; [discriminate|reflexivity].
  - destruct b as [|y b']; [discriminate|]. destruct c as [|z c']; [discriminate|].
    simpl in *.
    destruct (Ascii.compare x y) eqn:Exy; try discriminate;
      destruct (Ascii.compare y z) eqn:Eyz; try discriminate.
    + apply ascii_compare_eq in Exy, Eyz. subst.
      rewrite (proj2 (ascii_compare_eq z z) eq_refl). eauto.
    + apply ascii_compare_eq in Exy. subst. rewrite Eyz. reflexivity.
    + apply ascii_compare_eq in Eyz. subst. rewrite Exy. reflexivity.
    + apply ascii_compare_lt in Exy, Eyz.
      assert (Ascii.compare x z = Lt) as -> by (apply ascii_compare_lt; eapply N.lt_trans; eassumption).
      reflexivity.
Qed.

Lemma string_compare_refl (s : string) : String.compare s s = Eq.
Proof.
  induction s as [|c t IH]; simpl; [reflexivity|].
  rewrite (proj2 (ascii_compare_eq c c) eq_refl). exact IH.
Qed.

Lemma string_leb_trans (a b c : string) :
  String.leb a b = true -> String.leb b c = true -> String.leb a c = true.
Proof.
  unfold String.leb. intros Hab Hbc.
  destruct (String.compare a b) eqn:Eab; [| |discriminate];
  destruct (String.compare b c) eqn:Ebc; try discriminate.
  - apply String.compare_eq_iff in Eab. apply String.compare_eq_iff in Ebc.
    subst. rewrite string_compare_refl. reflexivity.
  - apply String.compare_eq_iff in Eab. subst. rewrite Ebc. reflexivity.
  - apply String.compare_eq_iff in Ebc. subst. rewrite Eab. reflexivity.
  - rewrite (string_compare_lt_trans a b c Eab Ebc). reflexivity.
Qed.

Section SortedUnique.
Context {A : Type} (R : A -> A -> Prop).
Hypothesis R_trans : forall x y z, R x y -> R y z -> R x z.
Hypothesis R_antisym : forall x y, R x y -> R y x -> x = y.

Lemma sorted_head_le (a : A) (l : list A) : Sorted R (a :: l) -> Forall (R a) l.
Proof.
  revert a. induction l as [|b t IH]; intros a H; [constructor|].
  apply Sorted_inv in H as [Hs Hhd]. apply HdRel_inv in Hhd.
  constructor; [exact Hhd|].
  eapply Forall_impl; [|exact (IH b Hs)]. intros x Hx. eauto.
Qed.

Lemma sorted_perm_eq (l1 l2 : list A) :
  Sorted R l1 -> Sorted R l2 -> Permutation l1 l2 -> l1 = l2.
Proof.
  revert l2. induction l1 as [|x t1 IH]; intros l2 H1 H2 Hp.
  - apply Permutation_nil in Hp. congruence.
  - destruct l2 as [|y t2]; [apply Permutation_sym, Permutation_nil in Hp; discriminate|].
    assert (x = y) as <-.
    { assert (Hx : In x (y :: t2)) by (eapply Permutation_in; [exact Hp|left; auto]).
      assert (Hy : In y (x :: t1)) by (eapply Permutation_in; [symmetry; exact Hp|left; auto]).
      destruct Hx as [Hx|Hx]; [auto|]. destruct Hy as [Hy|Hy]; [auto|].
      apply R_antisym.
      - exact (proj1 (Forall_forall _ _) (sorted_head_le x t1 H1) y Hy).
      - exact (proj1 (Forall_forall _ _) (sorted_head_le y t2 H2) x Hx). }
    f_equal. apply IH.
    + apply Sorted_inv in H1. tauto.
    + apply Sorted_inv in H2. tauto.
    + eapply Permutation_cons_inv. exact Hp.
Qed.

End SortedUnique.

Lemma filter_perm {A} (g : A -> bool) (l1 l2 : list A) :
  Permutation l1 l2 -> Permutation (filter g l1) (filter g l2).
Proof.
  induction 1; simpl.
  - constructor.
  - destruct (g x); [constructor|]; assumption.
  - destruct (g x), (g y); try constructor; try reflexivity.
  - etransitivity; eassumption.
Qed.

Lemma sort_names_perm (l1 l2 : list string) :
  Permutation l1 l2 -> sort_names l1 = sort_names l2.
Proof.
  intros Hp. unfold sort_names.
  apply (sorted_perm_eq (fun a b => String.leb a b = true)).
  - intros x y z. apply string_leb_trans.
  - intros x y. apply String.leb_antisym.
  - apply sort_by_sorted, string_leb_flip.
  - apply sort_by_sorted, string_leb_flip.
  - rewrite <- !sort_by_perm. exact Hp.
Qed.

(** [iterdir] lists the entries in an arbitrary order; the run does not
    depend on it: two listings with the same entries give the same
    candidates, the same inferred scheme and the same whole run. *)
Theorem main_listing_order_irrelevant (ps : string -> string)
    (pj : string -> string -> string) (w : world) (a : args)
    (listing : list string) :
  Permutation (w_listing w) listing ->
  collect_pngs (w_listing w) = collect_pngs listing /\
  infer_padding_and_prefix (w_listing w) = infer_padding_and_prefix listing /\
  main ps pj w a =
  main ps pj {| w_is_dir := w_is_dir w; w_listing := listing;
                w_which_ffmpeg := w_which_ffmpeg w; w_ffmpeg := w_ffmpeg w;
                w_resolve := w_resolve w |} a.
Proof.
  intros Hp.
  assert (Hc : collect_pngs (w_listing w) = collect_pngs listing).
  { unfold collect_pngs. apply sort_names_perm. apply filter_perm. exact Hp. }
  split; [exact Hc|]. split.
  - unfold infer_padding_and_prefix. rewrite (sort_names_perm _ _ Hp). reflexivity.
  - rewrite !main_eq. simpl. rewrite Hc. reflexivity.
Qed.

(** Witness of [main_ffmpeg_command]: the clip frames with default options
    run ffmpeg with the scheme [("clip_", 3)] and this command. *)
Lemma main_ffmpeg_command_witness :
  In (EvRunFfmpeg example_cmd)
     (fst (main example_path_str example_path_join
             (example_world (fun _ => (0%Z, Some 1%Z))) example_args)) /\
  snd (resolve_scheme example_args (collect_pngs clip_files))
    = inr ("clip_"%string, 3%Z) /\
  example_cmd =
    ["ffmpeg"; "-y"; "-framerate"; "30"; "-i"; "frames_png/clip_%03d.png";
     "-c:v"; "libx264"; "-preset"; "medium"; "-crf"; "18";
     "-pix_fmt"; "yuv420p"; "dropfilm.mp4"]%string.
Proof.
  assert (Hin : In (EvRunFfmpeg example_cmd)
     (fst (main example_path_str example_path_join
             (example_world (fun _ => (0%Z, Some 1%Z))) example_args)))
    by (vm_compute; auto 10).
  destruct (main_ffmpeg_command example_path_str example_path_join
              (example_world (fun _ => (0%Z, Some 1%Z))) example_args
              example_cmd Hin)
    as [_ [_ [_ [prefix [pad [Hr [Hc _]]]]]]].
  assert (Hs : snd (resolve_scheme example_args (collect_pngs clip_files))
               = inr ("clip_"%string, 3%Z)) by (vm_compute; reflexivity).
  simpl w_listing in Hr. rewrite Hs in Hr. injection Hr as <- <-.
  split; [exact Hin|]. split; [exact Hs|]. rewrite Hc. vm_compute. reflexivity.
Defined.

(** Witness of [main_explicit_scheme]: with [--prefix frame- --pad 5] a
    directory whose only PNG has no frame number, where inference would
    fail, still reaches ffmpeg. *)
Lemma main_explicit_scheme_witness :
  infer_padding_and_prefix (collect_pngs (w_listing cover_world)) = inl InferenceError /\
  In (EvRunFfmpeg (ffmpeg_cmd example_path_str explicit_args
                     (example_path_join "frames_png" (build_pattern "frame-" 5))))
     (fst (main example_path_str example_path_join cover_world explicit_args)) /\
  snd (main example_path_str example_path_join cover_world explicit_args)
    <> inl InferenceError.
Proof.
  split; [vm_compute; reflexivity|].
  apply (main_explicit_scheme example_path_str example_path_join cover_world
           explicit_args "frame-" 5 eq_refl eq_refl eq_refl).
  - vm_compute. discriminate.
  - reflexivity.
Defined.


(** Witness of [main_listing_order_irrelevant]: the clip frames listed in
    reverse. *)
Lemma main_listing_order_irrelevant_witness :
  collect_pngs clip_files = collect_pngs (rev clip_files) /\
  infer_padding_and_prefix clip_files = infer_padding_and_prefix (rev clip_files) /\
  main example_path_str example_path_join
    (example_world (fun _ => (0%Z, Some 1%Z))) example_args =
  main example_path_str example_path_join
    {| w_is_dir := true; w_listing := rev clip_files; w_which_ffmpeg := true;
       w_ffmpeg := fun _ => (0%Z, Some 1%Z);
       w_resolve := fun p => ("/work/" ++ p)%string |} example_args.
Proof.
  apply (main_listing_order_irrelevant example_path_str example_path_join
           (example_world (fun _ => (0%Z, Some 1%Z))) example_args (rev clip_files)).
  apply Permutation_rev.
Defined.
